(** * Text Analyzer: the analysis core of [text_analyzer.py]

    A shallow embedding of [label_sentiment] and [analyze_text], together
    with the pieces of the Python runtime that [analyze_text] calls
    ([str.strip], [str.lower], [re.findall] on the word pattern,
    [collections.Counter] and [Counter.most_common]), followed by the
    properties of the result record.

    Python strings are sequences of Unicode code points; floats are IEEE 754
    binary64 values, for which the kernel's primitive floats are used. *)

From Stdlib Require Import String Ascii Floats.
From Stdlib Require Import List Bool Arith NArith Lia.
From Stdlib Require Import Sorting.Sorted Permutation.
From Stdlib Require DecimalNat.
Import ListNotations.

Set Warnings "-inexact-float".

(** ** Python strings *)

Definition char := N.
Definition str := list char.

(** A Python string literal whose characters are all ASCII. *)
Definition py (s : string) : str := map N_of_ascii (list_ascii_of_string s).

Fixpoint str_eqb (a b : str) : bool :=
  match a, b with
  | [], [] => true
  | x :: a', y :: b' => N.eqb x y && str_eqb a' b'
  | _, _ => false
  end.

(** ** Character tables

    The analyzer reaches the interpreter's character tables through
    [str.strip] and [str.isspace] (white space), the pattern class [\w]
    (alphanumeric characters) and [str.lower] (the full lower-case mapping
    of a character, and the cased and case-ignorable characters that decide
    the form of a capital sigma).  The ASCII part of the tables is written
    out; the part beyond ASCII is a parameter. *)

Module Ascii7.

(** Tab, line feed, vertical tab, form feed, carriage return, the four
    separators 28 to 31 and the space are white space; digits and letters
    are alphanumeric; letters are cased and the capitals have a lower case;
    apostrophe, full stop, colon, circumflex and grave accent are
    case-ignorable. *)

Definition between (lo hi c : N) : bool := (N.leb lo c && N.leb c hi)%bool.

Definition space7 (c : char) : bool := (between 9 13 c || between 28 32 c)%bool.

Definition alnum7 (c : char) : bool :=
  (between 48 57 c || between 65 90 c || between 97 122 c)%bool.

Definition lower7 (c : char) : list char :=
  [if between 65 90 c then (c + 32)%N else c].

Definition cased7 (c : char) : bool := (between 65 90 c || between 97 122 c)%bool.

Definition ignorable7 (c : char) : bool :=
  (N.eqb c 39 || N.eqb c 46 || N.eqb c 58 || N.eqb c 94 || N.eqb c 96)%bool.

End Ascii7.

(** The tables for the code points from 128 on. *)
Class Unicode := {
  wide_isspace : char -> bool;
  wide_isalnum : char -> bool;
  wide_tolower_full : char -> list char;
  wide_cased : char -> bool;
  wide_case_ignorable : char -> bool
}.

(** Tables in which no code point beyond ASCII is white space, alphanumeric
    or cased. *)
Definition ascii_only : Unicode :=
  {| wide_isspace := fun _ => false;
     wide_isalnum := fun _ => false;
     wide_tolower_full := fun c => [c];
     wide_cased := fun _ => false;
     wide_case_ignorable := fun _ => false |}.

Section Tables.

Context {U : Unicode}.

Definition is_ascii (c : char) : bool := N.ltb c 128.

Definition isspace (c : char) : bool :=
  if is_ascii c then Ascii7.space7 c else wide_isspace c.

Definition isalnum (c : char) : bool :=
  if is_ascii c then Ascii7.alnum7 c else wide_isalnum c.

Definition tolower_full (c : char) : list char :=
  if is_ascii c then Ascii7.lower7 c else wide_tolower_full c.

Definition cased (c : char) : bool :=
  if is_ascii c then Ascii7.cased7 c else wide_cased c.

Definition case_ignorable (c : char) : bool :=
  if is_ascii c then Ascii7.ignorable7 c else wide_case_ignorable c.

End Tables.

Arguments isspace : simpl never.
Arguments isalnum : simpl never.
Arguments tolower_full : simpl never.
Arguments cased : simpl never.
Arguments case_ignorable : simpl never.

Section Runtime.

Context {U : Unicode}.

(** *** [str.strip()] *)

Fixpoint lstrip (s : str) : str :=
  match s with
  | c :: rest => if isspace c then lstrip rest else s
  | [] => []
  end.

Definition rstrip (s : str) : str := rev (lstrip (rev s)).

Definition strip (s : str) : str := rstrip (lstrip s).

(** *** [str.lower()] *)

Definition capital_sigma : char := 931%N.
Definition final_sigma : char := 962%N.
Definition small_sigma : char := 963%N.

(** Whether the first character that is not case-ignorable is cased. *)
Fixpoint cased_ahead (s : str) : bool :=
  match s with
  | [] => false
  | c :: rest => if case_ignorable c then cased_ahead rest else cased c
  end.

(** Every character is replaced by its lower-case mapping, except the
    capital sigma, which becomes a final sigma when a cased character
    stands before it and none after it (case-ignorable characters
    skipped), and a small sigma otherwise.  [cased_behind] says whether
    the last character passed that is not case-ignorable was cased. *)
Fixpoint lower_from (cased_behind : bool) (s : str) : str :=
  match s with
  | [] => []
  | c :: rest =>
      (if N.eqb c capital_sigma
       then [if (cased_behind && negb (cased_ahead rest))%bool
             then final_sigma else small_sigma]
       else tolower_full c)
      ++ lower_from (if case_ignorable c then cased_behind else cased c) rest
  end.

Definition lower (s : str) : str := lower_from false s.

(** *** [re.findall(r"\b[\w']+\b", s)] *)

(** [\w] *)
Definition is_word (c : char) : bool := (isalnum c || N.eqb c 95)%bool.

(** [[\w']] *)
Definition in_class (c : char) : bool := (is_word c || N.eqb c 39)%bool.

Definition word_side (c : option char) : bool :=
  match c with
  | Some x => is_word x
  | None => false
  end.

(** [\b] between the character before the position and the one after it
    ([None] at either end of the string). *)
Definition at_boundary (before after : option char) : bool :=
  xorb (word_side before) (word_side after).

(** [[\w']*\b] after one character of the class has been consumed: the
    repetition is greedy, and gives characters back until [\b] holds. *)
Fixpoint match_more (last : char) (s : str) : option str :=
  match s with
  | c :: rest =>
      if in_class c then
        match match_more c rest with
        | Some m => Some (c :: m)
        | None => if at_boundary (Some last) (Some c) then Some [] else None
        end
      else if at_boundary (Some last) (Some c) then Some [] else None
  | [] => if at_boundary (Some last) None then Some [] else None
  end.

(** The whole pattern tried at one position. *)
Definition match_at (before : option char) (s : str) : option str :=
  match s with
  | c :: rest =>
      if (at_boundary before (Some c) && in_class c)%bool then
        match match_more c rest with
        | Some m => Some (c :: m)
        | None => None
        end
      else None
  | [] => None
  end.

(** The scan: positions are tried from left to right, and the search
    resumes where a match ended ([skip] counts the characters of the
    current match that are still to be passed). *)
Fixpoint scan (before : option char) (s : str) (skip : nat) : list str :=
  match s with
  | [] => []
  | c :: rest =>
      match skip with
      | S k => scan (Some c) rest k
      | O =>
          match match_at before s with
          | Some tok => tok :: scan (Some c) rest (length tok - 1)
          | None => scan (Some c) rest 0
          end
      end
  end.

Definition findall (s : str) : list str := scan None s 0.

End Runtime.

(** ** [collections.Counter] *)

(** A counter is a dictionary, which keeps its keys in insertion order. *)
Definition counter := list (str * nat).

(** [c[w] = c.get(w, 0) + 1] *)
Fixpoint bump (w : str) (c : counter) : counter :=
  match c with
  | [] => [(w, 1)]
  | (k, n) :: c' => if str_eqb k w then (k, S n) :: c' else (k, n) :: bump w c'
  end.

Definition Counter (ws : list str) : counter :=
  fold_left (fun c w => bump w c) ws [].

(** [sorted(items, key=itemgetter(1), reverse=True)]: a stable sort, so
    items of equal count keep the order they had. *)
Fixpoint insert_desc (x : str * nat) (l : counter) : counter :=
  match l with
  | [] => [x]
  | y :: l' => if snd y <=? snd x then x :: l else y :: insert_desc x l'
  end.

Definition sorted_desc (l : counter) : counter := fold_right insert_desc [] l.

(** [Counter.most_common(n)], which is [heapq.nlargest(n, items, key)], that
    is [sorted(items, key=key, reverse=True)[:n]]. *)
Definition most_common (n : nat) (c : counter) : counter :=
  firstn n (sorted_desc c).

(** ** Sentiment *)

Record Scores := {
  compound : float;
  pos : float;
  neu : float;
  neg : float
}.

Definition zero_scores : Scores :=
  {| compound := 0.0; pos := 0.0; neu := 0.0; neg := 0.0 |}.

Definition label_sentiment (score : float) : string :=
  if (0.05 <=? score)%float then "Positive"%string
  else if (score <=? -0.05)%float then "Negative"%string
  else "Neutral"%string.

(** ** Programs that call the analyzer object

    [analyze_text] is handed an analyzer and may call its
    [polarity_scores] method.  A program is either finished or is such a
    call followed by the rest of the program. *)

Inductive Prog (A : Type) : Type :=
| Ret (a : A)
| PolarityScores (text : str) (k : Scores -> Prog A).

Arguments Ret {A} a.
Arguments PolarityScores {A} text k.

Fixpoint bind {A B : Type} (p : Prog A) (f : A -> Prog B) : Prog B :=
  match p with
  | Ret a => f a
  | PolarityScores t k => PolarityScores t (fun s => bind (k s) f)
  end.

Definition polarity_scores (text : str) : Prog Scores :=
  PolarityScores text Ret.

Notation "x <- p ;; q" := (bind p (fun x => q))
  (at level 61, p at next level, right associativity).

(** Running a program against an analyzer whose scores depend on the text
    alone: the result, and the texts the analyzer was asked about. *)
Fixpoint run {A : Type} (scorer : str -> Scores) (p : Prog A) : A :=
  match p with
  | Ret a => a
  | PolarityScores t k => run scorer (k (scorer t))
  end.

Fixpoint calls {A : Type} (scorer : str -> Scores) (p : Prog A) : list str :=
  match p with
  | Ret _ => []
  | PolarityScores t k => t :: calls scorer (k (scorer t))
  end.

(** Running a program against an analyzer that reads and updates a state of
    its own. *)
Fixpoint run_state {A W : Type} (scorer : str -> W -> Scores * W)
    (p : Prog A) (w : W) : A * W :=
  match p with
  | Ret a => (a, w)
  | PolarityScores t k =>
      let (s, w') := scorer t w in run_state scorer (k s) w'
  end.

(** ** [analyze_text] *)

Record AnalysisResult := {
  words : nat;
  chars_with_spaces : nat;
  chars_without_spaces : nat;
  top_words : list (str * nat);
  sentiment_label : string;
  sentiment_scores : Scores;
  preview : str
}.

Definition nonempty (s : str) : bool :=
  match s with
  | [] => false
  | _ :: _ => true
  end.

Section Analyzer.

Context {U : Unicode}.

Definition analyze_text (text : str) : Prog AnalysisResult :=
  let cleaned := strip text in
  let words := findall (lower cleaned) in
  let word_count := length words in
  let characters_with_spaces := length cleaned in
  let characters_without_spaces :=
    list_sum (map (fun _ => 1) (filter (fun char => negb (isspace char)) cleaned)) in
  let word_frequencies := most_common 5 (Counter words) in
  sentiment_scores <- (if nonempty cleaned then polarity_scores cleaned
                       else Ret zero_scores) ;;
  let sentiment_label := label_sentiment (compound sentiment_scores) in
  Ret {| words := word_count;
         chars_with_spaces := characters_with_spaces;
         chars_without_spaces := characters_without_spaces;
         top_words := word_frequencies;
         sentiment_label := sentiment_label;
         sentiment_scores := sentiment_scores;
         preview := if 200 <? length cleaned
                    then firstn 200 cleaned ++ py "..."
                    else cleaned |}.

End Analyzer.

(** ** Vocabulary of the properties *)

(** The record returned for a text that trims to nothing. *)
Definition empty_result : AnalysisResult :=
  {| words := 0;
     chars_with_spaces := 0;
     chars_without_spaces := 0;
     top_words := [];
     sentiment_label := "Neutral";
     sentiment_scores := zero_scores;
     preview := [] |}.

(** [precedes x y l]: some occurrence of [x] in [l] comes before some
    occurrence of [y]. *)
Inductive precedes {A : Type} (x y : A) : list A -> Prop :=
| precedes_here l : In y l -> precedes x y (x :: l)
| precedes_later z l : precedes x y l -> precedes x y (z :: l).

Definition descending : counter -> Prop :=
  StronglySorted (fun a b : str * nat => snd b <= snd a).

Definition keys (c : counter) : list str := map fst c.

Definition total (c : counter) : nat := list_sum (map snd c).

(** The position of the first occurrence of [w] (the length of the list
    when there is none). *)
Fixpoint first_index (w : str) (ws : list str) : nat :=
  match ws with
  | [] => 0
  | x :: rest => if str_eqb x w then 0 else S (first_index w rest)
  end.

Definition occurrences (w : str) (ws : list str) : nat :=
  length (filter (str_eqb w) ws).

Definition str_eq_dec : forall a b : str, {a = b} + {a <> b} :=
  list_eq_dec N.eq_dec.

Record counts_words (ws : list str) (c : counter) : Prop := {
  cw_nodup : NoDup (keys c);
  cw_keys : forall w, In w (keys c) <-> In w ws;
  cw_value : forall k n, In (k, n) c -> n = occurrences k ws;
  cw_order : forall k1 k2,
      precedes k1 k2 (keys c) -> first_index k1 ws < first_index k2 ws
}.

(** Facts about the character tables that hold of the interpreter's: white
    space is neither alphanumeric nor an underscore or apostrophe, it is
    its own lower case and plays no part in casing, and no lower-case
    mapping is empty or produces white space. *)
Record coherent (U : Unicode) : Prop := {
  space_not_alnum : forall c, isspace c = true -> isalnum c = false;
  underscore_not_space : isspace 95%N = false;
  apostrophe_not_space : isspace 39%N = false;
  space_lower : forall c, isspace c = true -> tolower_full c = [c];
  space_not_cased : forall c, isspace c = true -> cased c = false;
  space_not_ignorable : forall c, isspace c = true -> case_ignorable c = false;
  sigma_not_space :
    isspace capital_sigma = false /\ isspace final_sigma = false
    /\ isspace small_sigma = false;
  lower_not_space : forall c,
      isspace c = false ->
      tolower_full c <> [] /\ Forall (fun d => isspace d = false) (tolower_full c)
}.

Section Vocabulary.

Context {U : Unicode}.

(** The scores [analyze_text] works with under a given scorer. *)
Definition scores_used (scorer : str -> Scores) (text : str) : Scores :=
  if nonempty (strip text) then scorer (strip text) else zero_scores.

Definition blank (s : str) : Prop :=
  Forall (fun c => isspace c = true) s.

(** A text with no white space at either end. *)
Definition trimmed (s : str) : Prop := lstrip s = s /\ rstrip s = s.

Definition first_char (s : str) : option char := hd_error s.

Fixpoint last_char (s : str) : option char :=
  match s with
  | [] => None
  | c :: rest =>
      match rest with
      | [] => Some c
      | _ :: _ => last_char rest
      end
  end.

(** [tok], standing between [pre] and [post], is a run of word characters
    or apostrophes bounded by word boundaries. *)
Definition bounded_run (pre tok post : str) : Prop :=
  tok <> []
  /\ Forall (fun c => in_class c = true) tok
  /\ at_boundary (last_char pre) (first_char tok) = true
  /\ at_boundary (last_char tok) (first_char post) = true.

(** The last character of [l], or [before] when [l] is empty. *)
Definition last_or (before : option char) (l : str) : option char :=
  match last_char l with
  | Some x => Some x
  | None => before
  end.

(** What stands after a word character at a place where the search is
    resumed: not a word character, and nothing from which the rest of the
    pattern could match. *)
Definition no_restart (before : option char) (s : str) : Prop :=
  word_side before = true ->
  match s with
  | [] => True
  | d :: r => is_word d = false /\ (in_class d = true -> match_more d r = None)
  end.

End Vocabulary.

(** ** Sample inputs *)

Definition sample : str := py "Good good bad! great, GREAT.".

(** Two scorers: one finds every text neutral, the other likes the text
    "good" and nothing else. *)
Definition indifferent (_ : str) : Scores := zero_scores.

Definition likes_good (t : str) : Scores :=
  if str_eqb t (py "good")
  then {| compound := 0.5; pos := 1.0; neu := 0.0; neg := 0.0 |}
  else zero_scores.

Definition padded_good : str := py " good".

(** A third scorer, which differs from [likes_good] on " good" alone. *)
Definition dislikes_padding (t : str) : Scores :=
  if str_eqb t padded_good
  then {| compound := -0.5; pos := 0.0; neu := 0.0; neg := 1.0 |}
  else likes_good t.

Definition only_blanks : str := [32; 9; 10; 32]%N.

(** 250 letters between blanks. *)
Definition long_text : str := py " " ++ repeat 97%N 250 ++ py "  ".

(** * The presentation code

    What the console and the window do with the text and with the result
    of [analyze_text]: the formatting of the frequency table, the bordered
    panels, the two prompts of the console and the window's analyze
    button. *)

(** ** Formatting *)

(** [str(n)] for an integer that is not negative. *)
Fixpoint digits (d : Decimal.uint) : str :=
  match d with
  | Decimal.Nil => []
  | Decimal.D0 d' => 48%N :: digits d'
  | Decimal.D1 d' => 49%N :: digits d'
  | Decimal.D2 d' => 50%N :: digits d'
  | Decimal.D3 d' => 51%N :: digits d'
  | Decimal.D4 d' => 52%N :: digits d'
  | Decimal.D5 d' => 53%N :: digits d'
  | Decimal.D6 d' => 54%N :: digits d'
  | Decimal.D7 d' => 55%N :: digits d'
  | Decimal.D8 d' => 56%N :: digits d'
  | Decimal.D9 d' => 57%N :: digits d'
  end.

Definition str_of_int (n : nat) : str := digits (Nat.to_uint n).

(** [sep.join(items)] *)
Fixpoint join (sep : str) (items : list str) : str :=
  match items with
  | [] => []
  | [x] => x
  | x :: rest => x ++ sep ++ join sep rest
  end.

Definition space : char := 32%N.
Definition newline : char := 10%N.

(** [s.center(width)] and [s.ljust(width)], padding with spaces. *)
Definition center (s : str) (width : nat) : str :=
  if width <=? length s then s
  else
    let marg := width - length s in
    let left := marg / 2 + (if (Nat.odd marg && Nat.odd width)%bool then 1 else 0) in
    repeat space left ++ s ++ repeat space (marg - left).

Definition ljust (s : str) (width : nat) : str :=
  if width <=? length s then s else s ++ repeat space (width - length s).

(** ** [format_top_words] *)

Definition no_words_line : str :=
  py "No words detected. Add more text to see frequency insights.".

(** [f"{index}. {word} - {count} time(s)"] *)
Definition frequency_line (index : nat) (word : str) (count : nat) : str :=
  str_of_int index ++ py ". " ++ word ++ py " - " ++ str_of_int count
  ++ py " time(s)".

(** The loop over [enumerate(top_words, start=index)]. *)
Fixpoint frequency_lines (index : nat) (top_words : list (str * nat)) : list str :=
  match top_words with
  | [] => []
  | (word, count) :: rest =>
      frequency_line index word count :: frequency_lines (S index) rest
  end.

Definition format_top_words (top_words : list (str * nat)) : list str :=
  match top_words with
  | [] => [no_words_line]
  | _ :: _ => frequency_lines 1 top_words
  end.

(** ** [print_panel]

    The panel is the list of the strings handed to [print], in order.
    [textwrap.wrap] is a parameter. *)

Section Panel.

Variable wrap : str -> nat -> list str.

Definition panel_width (title : str) (lines : list str) : nat :=
  let inner_width := Nat.max (length title + 4) (list_max (map (@length char) lines)) in
  Nat.max inner_width 48.

(** [f"| {segment.ljust(inner_width)} |"] *)
Definition panel_row (inner_width : nat) (segment : str) : str :=
  py "| " ++ ljust segment inner_width ++ py " |".

(** [textwrap.wrap(line, inner_width) or [""]] *)
Definition wrapped (inner_width : nat) (line : str) : list str :=
  match wrap line inner_width with
  | [] => [[]]
  | segments => segments
  end.

Definition print_panel (title : str) (lines : list str) : list str :=
  let inner_width := panel_width title lines in
  let border := py "+" ++ repeat 45%N (inner_width + 2) ++ py "+" in
  [border;
   py "| " ++ center title inner_width ++ py " |";
   py "| " ++ repeat 45%N inner_width ++ py " |"]
  ++ flat_map (fun line => map (panel_row inner_width) (wrapped inner_width line))
       lines
  ++ [border; []].

End Panel.

(** ** The console

    Standard input is the list of the lines still to be read, standard
    output the list of the strings written so far.  [print] writes its
    argument and a line feed; [input] writes its prompt, then takes a line
    or raises [EOFError] when there is none. *)

Record console := {
  pending : list str;
  written : list str
}.

Inductive exn : Type := EOFError | RecursionError.

Inductive outcome (A : Type) : Type :=
| Returned (a : A)
| Raised (e : exn).

Arguments Returned {A} a.
Arguments Raised {A} e.

Definition print (s : str) (c : console) : console :=
  {| pending := pending c; written := written c ++ [s ++ [newline]] |}.

Definition print_each (rows : list str) (c : console) : console :=
  fold_left (fun c' row => print row c') rows c.

(** [str.upper()]: every character is replaced by its full upper-case
    mapping; the mappings beyond ASCII are a parameter. *)
Class UnicodeUpper := {
  wide_toupper_full : char -> list char
}.

Definition toupper_full {V : UnicodeUpper} (c : char) : list char :=
  if is_ascii c
  then [if Ascii7.between 97 122 c then (c - 32)%N else c]
  else wide_toupper_full c.

Definition upper {V : UnicodeUpper} (s : str) : str := flat_map toupper_full s.

(** Upper-case mappings that leave every code point beyond ASCII alone. *)
Definition ascii_upper : UnicodeUpper :=
  {| wide_toupper_full := fun c => [c] |}.

Section Console.

Context {U : Unicode} {V : UnicodeUpper}.
Variable wrap : str -> nat -> list str.

(** *** [prompt_input_method] *)

Definition input_options : list str :=
  [py "1) Analyze a text file";
   py "2) Paste or type text directly";
   py "I accept file paths with spaces and I expand ~ for home directories."].

Definition choice_prompt : str := py "Choose an option (1 or 2): ".

Definition choice_retry : str :=
  py "Please type 1 or 2 so I know which route to take." ++ [newline].

(** What a rejected line adds to the output. *)
Definition retry_output (rejected : list str) : list str :=
  flat_map (fun _ : str => [choice_prompt; choice_retry ++ [newline]]) rejected.

(** [choice in {"1", "2"}] *)
Definition is_choice (choice : str) : bool :=
  (str_eqb choice (py "1") || str_eqb choice (py "2"))%bool.

(** The [while True] loop, by recursion on the lines of input. *)
Fixpoint choice_loop (lines : list str) (out : list str) : outcome str * console :=
  match lines with
  | [] => (Raised EOFError, {| pending := []; written := out ++ [choice_prompt] |})
  | line :: rest =>
      let choice := strip line in
      if is_choice choice
      then (Returned choice,
            {| pending := rest; written := out ++ [choice_prompt] |})
      else choice_loop rest
             (written (print choice_retry
                         {| pending := rest; written := out ++ [choice_prompt] |}))
  end.

Definition prompt_input_method (c : console) : outcome str * console :=
  let c' := print_each (print_panel wrap (py "Input Options") input_options) c in
  choice_loop (pending c') (written c').

(** *** [read_text_from_input] *)

Definition paste_banner : str :=
  [newline]
  ++ py "Paste or type your text below. Type END on a new line when you are finished."
  ++ [newline].

Definition capture_retry : str :=
  py "I did not capture any text. Let's try that again." ++ [newline].

(** [line.strip().upper() == "END"] *)
Definition is_end (line : str) : bool := str_eqb (upper (strip line)) (py "END").

(** The [while True] loop: the lines appended to [lines] until a line is
    the sentinel or the input ends, and the input left. *)
Fixpoint capture (input : list str) (lines : list str) : list str * list str :=
  match input with
  | [] => (lines, [])
  | line :: rest =>
      if is_end line then (lines, rest) else capture rest (lines ++ [line])
  end.

(** The function calls itself when nothing was captured; [depth] is the
    number of nested calls the interpreter still allows, and a call beyond
    it raises [RecursionError]. *)
Fixpoint read_text_from_input (depth : nat) (c : console) : outcome str * console :=
  match depth with
  | O => (Raised RecursionError, c)
  | S depth' =>
      let c1 := print paste_banner c in
      let (lines, rest) := capture (pending c1) [] in
      let c2 := {| pending := rest; written := written c1 |} in
      let text := strip (join [newline] lines) in
      if nonempty text then (Returned text, c2)
      else read_text_from_input depth' (print capture_retry c2)
  end.

End Console.

(** ** The window

    A text widget holds its text and whether it can be edited; reading it
    to the end gives the text and a final line feed, and a widget that
    cannot be edited ignores deletions and insertions. *)

Record text_widget := {
  content : str;
  editable : bool
}.

Definition get_all (w : text_widget) : str := content w ++ [newline].

Definition delete_all (w : text_widget) : text_widget :=
  if editable w then {| content := []; editable := true |} else w.

Definition insert_end (s : str) (w : text_widget) : text_widget :=
  if editable w then {| content := content w ++ s; editable := true |} else w.

Definition config_state (state : bool) (w : text_widget) : text_widget :=
  {| content := content w; editable := state |}.

Inductive dialog : Type :=
| ShowWarning (title message : str)
| ShowError (title message : str).

Record window := {
  input_box : text_widget;
  output_box : text_widget;
  dialogs : list dialog
}.

Section Window.

Context {U : Unicode}.

(** The format [:.3f] of a float. *)
Variable format_3f : float -> str.

Definition no_text_warning : dialog :=
  ShowWarning (py "No Text") (py "Please enter or load some text first.").

(** The lines of the report, from the result of the analysis. *)
Definition report_lines (results : AnalysisResult) : list str :=
  let freq_lines := format_top_words (top_words results) in
  let scores := sentiment_scores results in
  let output_lines :=
    [py "Word count: " ++ str_of_int (words results);
     py "Characters (with spaces): " ++ str_of_int (chars_with_spaces results);
     py "Characters (without spaces): "
       ++ str_of_int (chars_without_spaces results);
     [];
     py "Top 5 Words:"] in
  let output_lines := output_lines ++ freq_lines in
  output_lines
  ++ [[];
      py "Sentiment: " ++ py (sentiment_label results);
      py "Scores -> "
        ++ py "Pos: " ++ format_3f (pos scores) ++ py ", "
        ++ py "Neu: " ++ format_3f (neu scores) ++ py ", "
        ++ py "Neg: " ++ format_3f (neg scores) ++ py ", "
        ++ py "Compound: " ++ format_3f (compound scores)].

(** The report the window shows for the result of an analysis. *)
Definition report (results : AnalysisResult) : str :=
  strip (join [newline] (report_lines results)).

Definition run_analysis (g : window) : Prog window :=
  let raw_text := strip (get_all (input_box g)) in
  if nonempty raw_text then
    results <- analyze_text raw_text ;;
    let compiled_output := strip (join [newline] (report_lines results)) in
    let box := config_state true (output_box g) in
    let box := delete_all box in
    let box := insert_end compiled_output box in
    let box := config_state false box in
    Ret {| input_box := input_box g; output_box := box; dialogs := dialogs g |}
  else
    Ret {| input_box := input_box g;
           output_box := output_box g;
           dialogs := dialogs g ++ [no_text_warning] |}.

End Window.

(** ** Files

    What the file system answers is a parameter: for the console, the
    regular file that a path names once [~] is expanded and the path
    resolved, if there is one, with its text decoded as UTF-8 (when that
    succeeds) and decoded with replacement characters; for the window, the
    text read from the chosen path or the message of the exception. *)

Record file := {
  decoded : option str;
  replaced : str
}.

Definition quote : char := 34%N.

(** [s.strip(chars)] *)
Fixpoint lstrip_chars (chars : str) (s : str) : str :=
  match s with
  | c :: rest => if existsb (N.eqb c) chars then lstrip_chars chars rest else s
  | [] => []
  end.

Definition strip_chars (chars : str) (s : str) : str :=
  rev (lstrip_chars chars (rev (lstrip_chars chars s))).

Section ConsoleFiles.

Context {U : Unicode} {V : UnicodeUpper}.
Variable wrap : str -> nat -> list str.
Variable files : str -> option file.

(** *** [read_text_from_file] *)

Definition path_prompt : str := [newline] ++ py "Enter the path to your text file: ".

Definition path_missing : str := py "Please provide a file path so I can keep going.".

Definition file_not_found : str :=
  py "I could not find that file. Double-check the path and try again.".

Definition file_empty : str :=
  py "That file looks empty. Pick another file or use manual input.".

(** The [while True] loop, by recursion on the lines of input. *)
Fixpoint path_loop (lines : list str) (out : list str) : outcome str * console :=
  match lines with
  | [] => (Raised EOFError, {| pending := []; written := out ++ [path_prompt] |})
  | line :: rest =>
      let raw_path := strip_chars [quote] (strip line) in
      let c := {| pending := rest; written := out ++ [path_prompt] |} in
      if nonempty raw_path then
        match files raw_path with
        | None => path_loop rest (written (print file_not_found c))
        | Some candidate =>
            let text :=
              match decoded candidate with
              | Some text => text
              | None => replaced candidate
              end in
            if nonempty (strip text) then (Returned text, c)
            else path_loop rest (written (print file_empty c))
        end
      else path_loop rest (written (print path_missing c))
  end.

Definition read_text_from_file (c : console) : outcome str * console :=
  path_loop (pending c) (written c).

(** *** [collect_text] *)

Definition collect_text (depth : nat) (c : console) : outcome str * console :=
  match prompt_input_method wrap c with
  | (Returned method, c') =>
      if str_eqb method (py "1") then read_text_from_file c'
      else read_text_from_input depth c'
  | (Raised e, c') => (Raised e, c')
  end.

End ConsoleFiles.

Section WindowFiles.

(** The answer of the file dialog and of reading the file. *)
Variable chosen : str.
Variable opened : str -> str + str.

Definition file_error (exc : str) : dialog :=
  ShowError (py "File Error")
    (py "Could not read the selected file." ++ [newline; newline]
     ++ py "Details: " ++ exc).

Definition load_file (g : window) : window :=
  let path := chosen in
  if nonempty path then
    match opened path with
    | inr exc =>
        {| input_box := input_box g;
           output_box := output_box g;
           dialogs := dialogs g ++ [file_error exc] |}
    | inl content =>
        {| input_box := insert_end content (delete_all (input_box g));
           output_box := output_box g;
           dialogs := dialogs g |}
    end
  else g.

End WindowFiles.

(** ** Vocabulary of the presentation properties *)

Section FileVocabulary.

Context {U : Unicode}.
Variable files : str -> option file.

(** The text read from a file: decoded strictly when that works. *)
Definition file_text (f : file) : str :=
  match decoded f with
  | Some text => text
  | None => replaced f
  end.

(** The text that a line of input leads to, when the line names a file
    whose text is not blank. *)
Definition usable_text (line : str) : option str :=
  let raw_path := strip_chars [quote] (strip line) in
  if nonempty raw_path then
    match files raw_path with
    | Some f => if nonempty (strip (file_text f)) then Some (file_text f) else None
    | None => None
    end
  else None.

End FileVocabulary.


Definition is_digit (c : char) : Prop := (48 <= c <= 57)%N.

(** The words of the items hold no space. *)
Definition spaceless (top : list (str * nat)) : Prop :=
  Forall (fun item => ~ In space (fst item)) top.

(** ** Sample inputs of the presentation code *)

(** A wrapping that cuts the line at the width, and a format with no
    digits to compute. *)
Definition cutting_wrap (line : str) (width : nat) : list str := [firstn width line].

Definition three_places (_ : float) : str := py "0.000".

Definition two_items : list (str * nat) := [(py "good", 2); (py "don't", 1)].

Definition typing_a_choice : console :=
  {| pending := [py "x"; py " 2 "; py "left"]; written := [] |}.

Definition typing_a_text : console :=
  {| pending := [py " Hello"; py "world "; py " end "; py "more"]; written := [] |}.

Definition typing_blanks : console :=
  {| pending := [py ""; py "  "]; written := [] |}.

Definition blank_window : window :=
  {| input_box := {| content := py "  "; editable := true |};
     output_box := {| content := py "old"; editable := false |};
     dialogs := [] |}.

Definition filled_window : window :=
  {| input_box := {| content := py " Good day "; editable := true |};
     output_box := {| content := py "old"; editable := false |};
     dialogs := [] |}.

(** A file system with a file of notes and a blank file. *)
Definition two_files (path : str) : option file :=
  if str_eqb path (py "notes.txt")
  then Some {| decoded := Some (py " Good day" ++ [newline]);
               replaced := py " Good day" ++ [newline] |}
  else if str_eqb path (py "empty.txt")
  then Some {| decoded := None; replaced := py "  " |}
  else None.


Definition choosing_to_type : console :=
  {| pending := [py "2"; py "hi there"; py "END"]; written := [] |}.

Definition reading_notes (_ : str) : str + str := inl (py " Good day ").

(** * Properties *)


(** ** Trimming *)

Section StripFacts.

Context {U : Unicode}.

Lemma lstrip_idem (s : str) : lstrip (lstrip s) = lstrip s.
Proof.
  induction s as [|c s IH]; simpl; auto.
  destruct (isspace c) eqn:E; auto.
  simpl. now rewrite E.
Qed.

Lemma lstrip_snoc (s : str) (c : char) :
  isspace c = false -> lstrip (s ++ [c]) = lstrip s ++ [c].
Proof.
  intros Hc. induction s as [|d s IH]; simpl.
  - now rewrite Hc.
  - destruct (isspace d); auto.
Qed.

Lemma rstrip_cons (c : char) (s : str) :
  isspace c = false -> rstrip (c :: s) = c :: rstrip s.
Proof.
  intros Hc. unfold rstrip. simpl.
  rewrite lstrip_snoc by assumption.
  now rewrite rev_app_distr.
Qed.

Lemma rstrip_idem (s : str) : rstrip (rstrip s) = rstrip s.
Proof.
  unfold rstrip. now rewrite rev_involutive, lstrip_idem.
Qed.

(** After [lstrip] the string is empty or starts with a character that is
    not white space. *)
Lemma lstrip_head (s : str) :
  lstrip s = [] \/ exists c r, lstrip s = c :: r /\ isspace c = false.
Proof.
  induction s as [|c s IH]; simpl; auto.
  destruct (isspace c) eqn:E; auto.
  right. now exists c, s.
Qed.

Lemma lstrip_strip (s : str) : lstrip (strip s) = strip s.
Proof.
  unfold strip.
  destruct (lstrip_head s) as [-> | (c & r & -> & Hc)].
  - reflexivity.
  - rewrite rstrip_cons by assumption. simpl. now rewrite Hc.
Qed.

Lemma strip_idem (s : str) : strip (strip s) = strip s.
Proof.
  unfold strip at 1. rewrite lstrip_strip.
  unfold strip. apply rstrip_idem.
Qed.

Lemma strip_nil : strip [] = [].
Proof. reflexivity. Qed.

End StripFacts.

(** ** Counting helpers *)

Lemma list_sum_ones {A : Type} (l : list A) :
  list_sum (map (fun _ => 1) l) = length l.
Proof. induction l; simpl; auto. Qed.

Lemma filter_split_length {A : Type} (f : A -> bool) (l : list A) :
  length (filter (fun x => negb (f x)) l) + length (filter f l) = length l.
Proof.
  induction l as [|x l IH]; simpl; auto.
  destruct (f x); simpl; lia.
Qed.

(** ** The shape of [analyze_text] *)

Section AnalyzerFacts.

Context {U : Unicode}.

Lemma run_words scorer text :
  words (run scorer (analyze_text text))
  = length (findall (lower (strip text))).
Proof. unfold analyze_text. destruct (nonempty _); reflexivity. Qed.

Lemma run_chars_with_spaces scorer text :
  chars_with_spaces (run scorer (analyze_text text)) = length (strip text).
Proof. unfold analyze_text. destruct (nonempty _); reflexivity. Qed.

Lemma run_chars_without_spaces scorer text :
  chars_without_spaces (run scorer (analyze_text text))
  = length (filter (fun c => negb (isspace c)) (strip text)).
Proof.
  unfold analyze_text.
  destruct (nonempty _); simpl; apply list_sum_ones.
Qed.

Lemma run_top_words scorer text :
  top_words (run scorer (analyze_text text))
  = most_common 5 (Counter (findall (lower (strip text)))).
Proof. unfold analyze_text. destruct (nonempty _); reflexivity. Qed.

Lemma run_sentiment_scores scorer text :
  sentiment_scores (run scorer (analyze_text text)) = scores_used scorer text.
Proof.
  unfold analyze_text, scores_used. destruct (nonempty _); reflexivity.
Qed.

Lemma run_sentiment_label scorer text :
  sentiment_label (run scorer (analyze_text text))
  = label_sentiment (compound (scores_used scorer text)).
Proof.
  unfold analyze_text, scores_used. destruct (nonempty _); reflexivity.
Qed.

Lemma run_preview scorer text :
  preview (run scorer (analyze_text text))
  = if 200 <? length (strip text)
    then firstn 200 (strip text) ++ py "..."
    else strip text.
Proof. unfold analyze_text. destruct (nonempty _); reflexivity. Qed.

(** The analyzer is called at most once, and then on the trimmed text. *)
Lemma calls_analyze_text scorer text :
  calls scorer (analyze_text text)
  = if nonempty (strip text) then [strip text] else [].
Proof. unfold analyze_text. destruct (nonempty _); reflexivity. Qed.

(** C3: when the trimmed text has more than 200 characters, the preview is
    its first 200 characters followed by the three-character marker "..."
    and has exactly 203 characters; when the trimmed text has at most 200
    characters, the preview is the trimmed text itself. *)
Theorem preview_truncation scorer text :
  let cleaned := strip text in
  let r := run scorer (analyze_text text) in
  (200 < length cleaned ->
     preview r = firstn 200 cleaned ++ py "..." /\ length (preview r) = 203)
  /\ (length cleaned <= 200 -> preview r = cleaned).
Proof.
  intros cleaned r. subst r. rewrite run_preview. fold cleaned.
  split; intros H.
  - apply Nat.ltb_lt in H as Hb. rewrite Hb. split; auto.
    rewrite length_app, firstn_length_le by lia. reflexivity.
  - apply Nat.ltb_ge in H. now rewrite H.
Qed.

(** C6: [chars_with_spaces] is the length of the trimmed text, and
    [chars_without_spaces] is that length minus the number of white-space
    characters of the trimmed text. *)
Theorem character_counts scorer text :
  let cleaned := strip text in
  let r := run scorer (analyze_text text) in
  chars_with_spaces r = length cleaned
  /\ chars_without_spaces r = length cleaned - length (filter isspace cleaned).
Proof.
  intros cleaned r. subst r.
  rewrite run_chars_with_spaces, run_chars_without_spaces. fold cleaned.
  split; auto.
  pose proof (filter_split_length isspace cleaned). lia.
Qed.

End AnalyzerFacts.

(** ** Sentiment labels *)

Lemma not_both_sides (c : float) :
  (c <=? -0.05)%float = true -> (0.05 <=? c)%float = false.
Proof.
  rewrite !leb_spec.
  remember (Prim2SF (-0.05)) as lo eqn:Hlo. vm_compute in Hlo.
  remember (Prim2SF 0.05) as hi eqn:Hhi. vm_compute in Hhi.
  subst lo hi.
  destruct (Prim2SF c) as [sg|sg| |sg m e]; try destruct sg;
    unfold SFleb, SFcompare; congruence.
Qed.

(** C2: the label is "Positive" exactly when the compound score is at least
    0.05, "Negative" exactly when it is at most -0.05, and "Neutral" exactly
    when it is neither; this holds for every float, so in particular for
    every compound score between -1 and 1. *)
Theorem label_sentiment_thresholds (score : float) :
  (label_sentiment score = "Positive"%string <-> (0.05 <=? score)%float = true)
  /\ (label_sentiment score = "Negative"%string <-> (score <=? -0.05)%float = true)
  /\ (label_sentiment score = "Neutral"%string <->
        (0.05 <=? score)%float = false /\ (score <=? -0.05)%float = false).
Proof.
  unfold label_sentiment.
  pose proof (not_both_sides score) as Hx.
  destruct (0.05 <=? score)%float eqn:Hp;
    destruct (score <=? -0.05)%float eqn:Hn;
    try (specialize (Hx eq_refl); discriminate);
    repeat split; intros; try discriminate; try reflexivity;
    try (destruct H; discriminate).
Qed.

Section FacadeFacts.

Context {U : Unicode}.

(** C7: for a text that is empty or trims to the empty string,
    [analyze_text] is a finished program that makes no call to
    [polarity_scores]; whatever the scorer, no call is recorded, the
    scorer's state is left as it was, and the result has zero counts, no
    top words, all four scores 0.0, the label "Neutral" and an empty
    preview. *)
Theorem empty_text_result (text : str) (H : strip text = []) :
  analyze_text text = Ret empty_result
  /\ (forall scorer, calls scorer (analyze_text text) = [])
  /\ (forall scorer, run scorer (analyze_text text) = empty_result)
  /\ (forall (W : Type) (scorer : str -> W -> Scores * W) (w : W),
        run_state scorer (analyze_text text) w = (empty_result, w)).
Proof.
  assert (E : analyze_text text = Ret empty_result).
  { unfold analyze_text. rewrite H. reflexivity. }
  rewrite E. repeat split; reflexivity.
Qed.

(** C9: [analyze_text] on a text and on its trimmed form are the same
    program, so under every scorer they make the same calls and return
    records equal in every field. *)
Theorem trimming_invariance (text : str) :
  analyze_text (strip text) = analyze_text text
  /\ (forall scorer,
        run scorer (analyze_text (strip text)) = run scorer (analyze_text text)
        /\ calls scorer (analyze_text (strip text))
           = calls scorer (analyze_text text)).
Proof.
  assert (E : analyze_text (strip text) = analyze_text text).
  { unfold analyze_text. now rewrite strip_idem. }
  rewrite E. auto.
Qed.

End FacadeFacts.

(** ** Order of items in a list *)

Create HintDb order.
#[local] Hint Constructors precedes : order.

Lemma precedes_In {A : Type} (x y : A) l :
  precedes x y l -> In x l /\ In y l.
Proof. induction 1; simpl; intuition. Qed.

Lemma precedes_snoc {A : Type} (x y z : A) l :
  precedes x y (l ++ [z]) -> precedes x y l \/ (In x l /\ y = z).
Proof.
  induction l as [|a l IH]; simpl; intros H.
  - inversion H as [? Hin | ? ? Hp]; subst.
    + destruct Hin.
    + inversion Hp.
  - inversion H as [? Hin | ? ? Hp]; subst.
    + apply in_app_or in Hin.
      destruct Hin as [Hin | [Hin | []]]; auto with order.
    + destruct (IH Hp) as [H2 | [H2 H3]]; auto with order.
Qed.

Lemma precedes_map {A B : Type} (f : A -> B) (x y : A) l :
  precedes x y l -> precedes (f x) (f y) (map f l).
Proof.
  induction 1; simpl; auto with order.
  constructor. now apply in_map.
Qed.

Lemma firstn_incl {A : Type} (x : A) n l : In x (firstn n l) -> In x l.
Proof.
  revert l. induction n as [|n IH]; intros [|a l]; simpl; intuition.
Qed.

Lemma precedes_firstn {A : Type} (x y : A) n l :
  precedes x y (firstn n l) -> precedes x y l.
Proof.
  revert l. induction n as [|n IH]; intros [|a l] H; simpl in H;
    try solve [inversion H].
  inversion H as [? Hin | ? ? Hp]; subst.
  - constructor. eapply firstn_incl; eauto.
  - auto with order.
Qed.

Lemma nth_error_precedes {A : Type} (l : list A) :
  forall i j x y,
    i < j -> nth_error l i = Some x -> nth_error l j = Some y ->
    precedes x y l.
Proof.
  induction l as [|a l IH]; intros i j x y Hij Hi Hj.
  - destruct i; discriminate.
  - destruct j as [|j]; [lia|]. simpl in Hj.
    destruct i as [|i]; simpl in Hi.
    + injection Hi as ->. constructor. eapply nth_error_In; eauto.
    + apply precedes_later. apply (IH i j); auto; lia.
Qed.

(** ** The stable descending sort *)

Lemma insert_desc_In x y l : In y (insert_desc x l) <-> y = x \/ In y l.
Proof.
  induction l as [|z l IH]; simpl.
  - intuition.
  - destruct (snd z <=? snd x); simpl; intuition.
Qed.

Lemma insert_desc_perm x l : Permutation (insert_desc x l) (x :: l).
Proof.
  induction l as [|z l IH]; simpl; auto.
  destruct (snd z <=? snd x); auto.
  rewrite IH. apply perm_swap.
Qed.

Lemma sorted_desc_perm l : Permutation (sorted_desc l) l.
Proof.
  induction l as [|x l IH]; simpl; auto.
  rewrite insert_desc_perm. now constructor.
Qed.

Lemma insert_desc_descending x l :
  descending l -> descending (insert_desc x l).
Proof.
  unfold descending. induction 1 as [|z l Hl IH Hz]; simpl.
  - repeat constructor.
  - destruct (snd z <=? snd x) eqn:E.
    + apply Nat.leb_le in E. constructor.
      * now constructor.
      * constructor; auto.
        rewrite Forall_forall in *. intros b Hb. specialize (Hz b Hb). lia.
    + apply Nat.leb_gt in E. constructor; auto.
      rewrite Forall_forall in *. intros b Hb.
      apply insert_desc_In in Hb. destruct Hb as [-> | Hb]; auto. lia.
Qed.

Lemma sorted_desc_descending l : descending (sorted_desc l).
Proof.
  induction l; simpl.
  - constructor.
  - now apply insert_desc_descending.
Qed.

Lemma firstn_descending n l : descending l -> descending (firstn n l).
Proof.
  unfold descending. intros H. revert n.
  induction H as [|z l Hl IH Hz]; intros [|n]; simpl; try constructor; auto.
  rewrite Forall_forall in *. intros b Hb. apply Hz.
  eapply firstn_incl; eauto.
Qed.

(** Inserting never moves an item in front of an earlier item of the same
    or a smaller count. *)
Lemma insert_desc_precedes x a b l :
  precedes a b (insert_desc x l) ->
  (a = x /\ In b l) \/ precedes a b l \/ (b = x /\ In a l /\ snd x < snd a).
Proof.
  induction l as [|z l IH]; simpl; intros H.
  - inversion H as [? Hin | ? ? Hp]; subst.
    + destruct Hin.
    + inversion Hp.
  - destruct (snd z <=? snd x) eqn:E.
    + inversion H; subst; auto.
    + apply Nat.leb_gt in E. inversion H as [? Hin | ? ? Hq]; subst.
      * apply insert_desc_In in Hin. destruct Hin as [-> | Hin].
        -- right; right. simpl; auto.
        -- right; left. now constructor.
      * destruct (IH Hq) as [[-> Hb] | [Hp | (-> & Ha & Hlt)]].
        -- left. simpl; auto.
        -- right; left. now apply precedes_later.
        -- right; right. simpl; auto.
Qed.

Lemma sorted_desc_stable a b l :
  precedes a b (sorted_desc l) -> snd a <= snd b -> precedes a b l.
Proof.
  induction l as [|x l IH]; simpl; intros H Hab.
  - inversion H.
  - apply insert_desc_precedes in H.
    destruct H as [[-> Hb] | [Hp | (-> & Ha & Hlt)]].
    + constructor. eapply Permutation_in; [apply sorted_desc_perm | exact Hb].
    + apply precedes_later. auto.
    + lia.
Qed.

(** ** Words and their counts *)

Lemma str_eqb_eq (a b : str) : str_eqb a b = true <-> a = b.
Proof.
  revert b. induction a as [|x a IH]; intros [|y b]; simpl;
    try (split; [discriminate | discriminate]); try tauto.
  rewrite andb_true_iff, N.eqb_eq, IH. split.
  - intros [-> ->]; reflexivity.
  - intros E; injection E; auto.
Qed.

Lemma str_eqb_refl (a : str) : str_eqb a a = true.
Proof. now apply str_eqb_eq. Qed.

Lemma str_eqb_neq (a b : str) : str_eqb a b = false <-> a <> b.
Proof.
  rewrite <- str_eqb_eq. destruct (str_eqb a b); split; congruence.
Qed.

Lemma first_index_app_in w ws l :
  In w ws -> first_index w (ws ++ l) = first_index w ws.
Proof.
  induction ws as [|x ws IH]; simpl; [tauto|].
  intros [-> | H].
  - now rewrite str_eqb_refl.
  - destruct (str_eqb x w); auto.
Qed.

Lemma first_index_lt w ws : In w ws -> first_index w ws < length ws.
Proof.
  induction ws as [|x ws IH]; simpl; [tauto|].
  intros [-> | H].
  - rewrite str_eqb_refl. lia.
  - destruct (str_eqb x w); [lia|]. specialize (IH H). lia.
Qed.

Lemma first_index_fresh w ws :
  ~ In w ws -> first_index w (ws ++ [w]) = length ws.
Proof.
  induction ws as [|x ws IH]; simpl; intros H.
  - now rewrite str_eqb_refl.
  - destruct (str_eqb x w) eqn:E.
    + apply str_eqb_eq in E. tauto.
    + rewrite IH; tauto.
Qed.

Lemma occurrences_snoc k w ws :
  occurrences k (ws ++ [w])
  = occurrences k ws + (if str_eqb k w then 1 else 0).
Proof.
  unfold occurrences. rewrite filter_app, length_app. simpl.
  destruct (str_eqb k w); reflexivity.
Qed.

Lemma occurrences_absent w ws : ~ In w ws -> occurrences w ws = 0.
Proof.
  unfold occurrences. induction ws as [|x ws IH]; simpl; intros H; auto.
  destruct (str_eqb w x) eqn:E.
  - apply str_eqb_eq in E. exfalso. apply H. left. congruence.
  - apply IH. tauto.
Qed.

Lemma occurrences_present w ws : In w ws -> 1 <= occurrences w ws.
Proof.
  unfold occurrences. induction ws as [|x ws IH]; simpl; [tauto|].
  intros [-> | H].
  - rewrite str_eqb_refl. simpl. lia.
  - destruct (str_eqb w x); simpl; auto.
Qed.

(** *** One update of the counter *)

Lemma keys_bump_in w c : In w (keys c) -> keys (bump w c) = keys c.
Proof.
  induction c as [|[k n] c IH]; simpl; [tauto|].
  intros H. destruct (str_eqb k w) eqn:E; simpl; auto.
  apply str_eqb_neq in E. f_equal. apply IH. tauto.
Qed.

Lemma keys_bump_fresh w c : ~ In w (keys c) -> keys (bump w c) = keys c ++ [w].
Proof.
  induction c as [|[k n] c IH]; simpl; auto.
  intros H. destruct (str_eqb k w) eqn:E; simpl.
  - apply str_eqb_eq in E. tauto.
  - f_equal. apply IH. tauto.
Qed.

Lemma total_bump w c : total (bump w c) = S (total c).
Proof.
  unfold total. induction c as [|[k n] c IH]; simpl; auto.
  destruct (str_eqb k w); simpl; auto. rewrite IH. lia.
Qed.

Lemma bump_positive w c :
  Forall (fun p => 1 <= snd p) c -> Forall (fun p => 1 <= snd p) (bump w c).
Proof.
  induction 1 as [|[k n] c Hk Hc IH]; simpl.
  - repeat constructor.
  - destruct (str_eqb k w); constructor; simpl in *; auto; lia.
Qed.

(** What an item of the updated counter was before the update. *)
Lemma In_bump w c k n :
  NoDup (keys c) -> In (k, n) (bump w c) ->
  (k = w /\ n = 1 /\ ~ In w (keys c))
  \/ (k = w /\ exists m, n = S m /\ In (w, m) c)
  \/ (k <> w /\ In (k, n) c).
Proof.
  induction c as [|[k0 n0] c IH]; simpl; intros Hnd H.
  - destruct H as [H | []]. injection H as <- <-. left. tauto.
  - inversion Hnd as [|? ? Hk0 Hnd']; subst.
    destruct (str_eqb k0 w) eqn:E.
    + apply str_eqb_eq in E. subst k0.
      destruct H as [H | H].
      * injection H as <- <-. right; left. split; auto. exists n0. auto.
      * right; right. split; auto.
        intros ->. apply Hk0. change w with (fst (w, n)). now apply in_map.
    + apply str_eqb_neq in E. destruct H as [H | H].
      * injection H as <- <-. right; right. auto.
      * destruct (IH Hnd' H) as [(-> & -> & Hw) | [(-> & m & -> & Hm) | [Hne Hin]]].
        -- left. intuition.
        -- right; left. split; auto. exists m. auto.
        -- right; right. auto.
Qed.

Lemma Counter_snoc ws w : Counter (ws ++ [w]) = bump w (Counter ws).
Proof. unfold Counter. now rewrite fold_left_app. Qed.

Lemma total_Counter ws : total (Counter ws) = length ws.
Proof.
  induction ws as [|w ws IH] using rev_ind; auto.
  rewrite Counter_snoc, total_bump, IH, length_app. simpl. lia.
Qed.

Lemma Counter_positive ws : Forall (fun p => 1 <= snd p) (Counter ws).
Proof.
  induction ws as [|w ws IH] using rev_ind.
  - constructor.
  - rewrite Counter_snoc. now apply bump_positive.
Qed.

(** *** The counter of a list of words

    Its keys are the distinct words, in the order in which they first
    occur, and each is paired with its number of occurrences. *)

Lemma In_keys k n (c : counter) : In (k, n) c -> In k (keys c).
Proof. intros H. change k with (fst (k, n)). now apply in_map. Qed.

Lemma counts_words_bump ws c w :
  counts_words ws c -> counts_words (ws ++ [w]) (bump w c).
Proof.
  intros [Hnd Hin Hocc Hord].
  assert (Hval : forall k n, In (k, n) (bump w c) -> n = occurrences k (ws ++ [w])).
  { intros k n H. rewrite occurrences_snoc.
    destruct (In_bump w c k n Hnd H)
      as [(-> & -> & Hw) | [(-> & m & -> & Hm) | [Hne Hk]]].
    - rewrite str_eqb_refl, occurrences_absent; auto.
      now rewrite <- Hin.
    - rewrite str_eqb_refl, <- (Hocc _ _ Hm). lia.
    - apply str_eqb_neq in Hne. rewrite Hne, <- (Hocc _ _ Hk). lia. }
  destruct (in_dec str_eq_dec w (keys c)) as [Hw | Hw].
  - rewrite <- (keys_bump_in w c Hw) in Hnd, Hin, Hord.
    split; auto.
    + intros k. rewrite Hin, in_app_iff. simpl. split; auto.
      intros [H | [<- | []]]; auto.
      apply Hin. now rewrite keys_bump_in.
    + intros k1 k2 H. pose proof (precedes_In _ _ _ H) as [H1 H2].
      apply Hin in H1, H2.
      rewrite !first_index_app_in; auto.
  - pose proof (keys_bump_fresh w c Hw) as E.
    assert (Hw' : ~ In w ws) by now rewrite <- Hin.
    split; auto.
    + rewrite E. apply NoDup_rev in Hnd.
      rewrite <- (rev_involutive (keys c ++ [w])). apply NoDup_rev.
      rewrite rev_app_distr. simpl. constructor; auto.
      now rewrite <- in_rev.
    + intros k. rewrite E, !in_app_iff, Hin. tauto.
    + intros k1 k2 H. rewrite E in H.
      destruct (precedes_snoc _ _ _ _ H) as [Hp | [H1 ->]].
      * pose proof (precedes_In _ _ _ Hp) as [H1 H2].
        apply Hin in H1, H2.
        rewrite !first_index_app_in; auto.
      * apply Hin in H1.
        rewrite first_index_app_in, first_index_fresh; auto.
        now apply first_index_lt.
Qed.

Lemma Counter_counts_words ws : counts_words ws (Counter ws).
Proof.
  induction ws as [|w ws IH] using rev_ind.
  - split; simpl; try tauto.
    + constructor.
    + intros k1 k2 H. inversion H.
  - rewrite Counter_snoc. now apply counts_words_bump.
Qed.

(** *** The most common words *)

Lemma total_perm c c' : Permutation c c' -> total c = total c'.
Proof.
  unfold total. induction 1; simpl; lia.
Qed.

Lemma total_firstn n c : total (firstn n c) <= total c.
Proof.
  unfold total. revert c. induction n as [|n IH]; intros [|p c]; simpl; try lia.
  specialize (IH c). lia.
Qed.

Lemma descending_app l1 l2 a b :
  descending (l1 ++ l2) -> In a l1 -> In b l2 -> snd b <= snd a.
Proof.
  unfold descending. induction l1 as [|x l1 IH]; simpl; intros H Ha Hb; [tauto|].
  inversion H as [|? ? Hs Hx]; subst.
  destruct Ha as [-> | Ha]; auto.
  rewrite Forall_forall in Hx. apply Hx. apply in_or_app. now right.
Qed.

Lemma most_common_length n c : length (most_common n c) <= n.
Proof. apply firstn_le_length. Qed.

Lemma most_common_descending n c : descending (most_common n c).
Proof. apply firstn_descending, sorted_desc_descending. Qed.

Lemma most_common_In n c p : In p (most_common n c) -> In p c.
Proof.
  intros H. apply firstn_incl in H.
  eapply Permutation_in; [apply sorted_desc_perm | exact H].
Qed.

(** Of two listed items with the same count, the one listed first was
    inserted into the counter first. *)
Lemma most_common_ties n c a b :
  precedes a b (most_common n c) -> snd a <= snd b -> precedes a b c.
Proof.
  intros H. apply precedes_firstn in H. now apply sorted_desc_stable.
Qed.

(** An item that is left out has a count no larger than any listed one. *)
Lemma most_common_top n c p q :
  In p c -> ~ In p (most_common n c) -> In q (most_common n c) ->
  snd p <= snd q.
Proof.
  unfold most_common. intros Hp Hout Hq.
  apply (Permutation_in _ (Permutation_sym (sorted_desc_perm c))) in Hp.
  rewrite <- (firstn_skipn n (sorted_desc c)) in Hp.
  apply in_app_or in Hp. destruct Hp as [Hp | Hp]; [tauto|].
  apply (descending_app (firstn n (sorted_desc c)) (skipn n (sorted_desc c)));
    auto.
  rewrite firstn_skipn. apply sorted_desc_descending.
Qed.

Section TopWords.

Context {U : Unicode}.

(** C1: the [top_words] of the result have at most 5 entries, are in
    descending order of count, and of two entries with the same count the
    one listed first is the word that occurs first among the tokens; a
    text that trims to the empty string has no top words.  The count
    listed with a word is its number of occurrences among the tokens, no
    word is listed twice, and a token that is not listed occurs no more
    often than any listed word. *)
Theorem top_words_ranking scorer text :
  let tokens := findall (lower (strip text)) in
  let top := top_words (run scorer (analyze_text text)) in
  length top <= 5
  /\ descending top
  /\ (forall i j w1 w2 n,
        i < j -> nth_error top i = Some (w1, n) ->
        nth_error top j = Some (w2, n) ->
        first_index w1 tokens < first_index w2 tokens)
  /\ (strip text = [] -> top = [])
  /\ (forall w n, In (w, n) top -> In w tokens /\ n = occurrences w tokens)
  /\ NoDup (keys top)
  /\ (forall w q, In w tokens -> ~ In w (keys top) -> In q top ->
        occurrences w tokens <= snd q).
Proof.
  intros tokens top. subst top. rewrite run_top_words. fold tokens.
  destruct (Counter_counts_words tokens) as [Hnd Hin Hocc Hord].
  assert (Hval : forall w n,
             In (w, n) (most_common 5 (Counter tokens)) ->
             In w tokens /\ n = occurrences w tokens).
  { intros w n H. apply most_common_In in H. split.
    - apply Hin. eapply In_keys; eauto.
    - now apply Hocc. }
  repeat split.
  - apply most_common_length.
  - apply most_common_descending.
  - intros i j w1 w2 n Hij Hi Hj.
    pose proof (nth_error_precedes _ _ _ _ _ Hij Hi Hj) as Hp.
    apply most_common_ties in Hp; [|simpl; lia].
    apply (precedes_map fst) in Hp. now apply Hord.
  - intros E. subst tokens. rewrite E. reflexivity.
  - now destruct (Hval _ _ H).
  - now destruct (Hval _ _ H).
  - unfold keys, most_common.
    pose proof (sorted_desc_perm (Counter tokens)) as P.
    apply (Permutation_map fst) in P.
    apply (Permutation_NoDup (Permutation_sym P)) in Hnd.
    rewrite <- (firstn_skipn 5 (sorted_desc (Counter tokens))) in Hnd.
    rewrite map_app in Hnd. now apply NoDup_app_remove_r in Hnd.
  - intros w q Hw Hout Hq.
    apply Hin in Hw. apply in_map_iff in Hw.
    destruct Hw as ([w' n] & E & Hw). simpl in E. subst w'.
    rewrite <- (Hocc _ _ Hw).
    apply (most_common_top 5 (Counter tokens) (w, n) q); auto.
    intros H. apply Hout. eapply In_keys; eauto.
Qed.

(** C10: in every result, [chars_without_spaces] is at most
    [chars_with_spaces], every count in [top_words] is at least 1, and
    the counts in [top_words] add up to at most [words]. *)
Theorem result_invariant scorer text :
  let r := run scorer (analyze_text text) in
  chars_without_spaces r <= chars_with_spaces r
  /\ Forall (fun p => 1 <= snd p) (top_words r)
  /\ total (top_words r) <= words r.
Proof.
  intros r. subst r.
  rewrite run_chars_without_spaces, run_chars_with_spaces,
    run_top_words, run_words.
  set (tokens := findall (lower (strip text))).
  repeat split.
  - pose proof (filter_split_length isspace (strip text)). lia.
  - apply Forall_forall. intros p Hp. apply most_common_In in Hp.
    pose proof (Counter_positive tokens) as Hpos.
    rewrite Forall_forall in Hpos. auto.
  - unfold most_common.
    rewrite <- (total_Counter tokens),
      <- (total_perm _ _ (sorted_desc_perm (Counter tokens))).
    apply total_firstn.
Qed.

End TopWords.

(** ** White space around a text *)

Section Padding.

Context {U : Unicode}.

Lemma lstrip_split (s : str) : exists pre, s = pre ++ lstrip s /\ blank pre.
Proof.
  induction s as [|c s (pre & E & Hpre)]; simpl.
  - exists []. split; [reflexivity | constructor].
  - destruct (isspace c) eqn:Hc.
    + exists (c :: pre). split; [simpl; congruence | now constructor].
    + exists []. split; [reflexivity | constructor].
Qed.

Lemma blank_rev (s : str) : blank s -> blank (rev s).
Proof.
  unfold blank. rewrite !Forall_forall. intros H c Hc.
  apply H. now apply in_rev.
Qed.

(** A text is its trimmed form between two runs of white space. *)
Lemma strip_split (s : str) :
  exists pre post, s = pre ++ strip s ++ post /\ blank pre /\ blank post.
Proof.
  destruct (lstrip_split s) as (pre & E & Hpre).
  destruct (lstrip_split (rev (lstrip s))) as (post & E' & Hpost).
  exists pre, (rev post). repeat split; auto using blank_rev.
  unfold strip, rstrip. rewrite <- rev_app_distr, <- E', rev_involutive.
  exact E.
Qed.

Lemma lstrip_blank (pre s : str) : blank pre -> lstrip (pre ++ s) = lstrip s.
Proof.
  induction 1 as [|c pre Hc _ IH]; simpl; auto. now rewrite Hc.
Qed.

Lemma rstrip_blank (s post : str) : blank post -> rstrip (s ++ post) = rstrip s.
Proof.
  intros H. unfold rstrip. rewrite rev_app_distr.
  now rewrite lstrip_blank by now apply blank_rev.
Qed.

Lemma strip_trimmed (s : str) : trimmed (strip s).
Proof.
  split; [apply lstrip_strip | apply rstrip_idem].
Qed.

Lemma strip_padded (pre mid post : str) :
  blank pre -> blank post -> trimmed mid -> strip (pre ++ mid ++ post) = mid.
Proof.
  intros Hpre Hpost [Hl Hr]. unfold strip.
  rewrite lstrip_blank by assumption.
  destruct mid as [|c mid]; simpl.
  - rewrite <- (app_nil_r post), lstrip_blank by assumption. reflexivity.
  - simpl in Hl. destruct (isspace c) eqn:Hc.
    + exfalso. pose proof (lstrip_split mid) as (p & E & _).
      apply (f_equal (@length _)) in Hl, E.
      rewrite length_app in E. simpl in Hl. lia.
    + change (c :: mid ++ post) with ((c :: mid) ++ post).
      now rewrite rstrip_blank.
Qed.

Lemma trimmed_ends (s : str) :
  trimmed s ->
  s = [] \/ (exists c r, s = c :: r /\ isspace c = false)
            /\ (exists r c, s = r ++ [c] /\ isspace c = false).
Proof.
  intros [Hl Hr].
  destruct (lstrip_head s) as [E | (c & r & E & Hc)]; rewrite Hl in E; auto.
  right. split; [now exists c, r|].
  unfold rstrip in Hr.
  destruct (lstrip_head (rev s)) as [E' | (d & q & E' & Hd)];
    rewrite E' in Hr; simpl in Hr.
  - subst s. discriminate.
  - exists (rev q), d. split; auto.
Qed.

Lemma ends_trimmed (s : str) :
  (exists c r, s = c :: r /\ isspace c = false) ->
  (exists r c, s = r ++ [c] /\ isspace c = false) ->
  trimmed s.
Proof.
  intros (c & r & E & Hc) (q & d & E' & Hd). split.
  - rewrite E. simpl. now rewrite Hc.
  - rewrite E'. unfold rstrip. rewrite rev_app_distr. simpl.
    rewrite Hd. simpl. now rewrite rev_involutive.
Qed.

End Padding.

Section PaddingInvariance.

Context {U : Unicode}.
Hypothesis HU : coherent U.

(** *** Lower case commutes with trimming *)

Lemma cased_ahead_blank (s post : str) :
  blank post -> cased_ahead (s ++ post) = cased_ahead s.
Proof.
  intros Hpost. induction s as [|c s IH]; simpl.
  - destruct Hpost as [|d post Hd _]; simpl; auto.
    now rewrite (space_not_ignorable U HU d Hd), (space_not_cased U HU d Hd).
  - now rewrite IH.
Qed.

Lemma space_not_capital_sigma (c : char) :
  isspace c = true -> N.eqb c capital_sigma = false.
Proof.
  intros Hc. apply N.eqb_neq. intros ->.
  destruct (sigma_not_space U HU) as [H _]. congruence.
Qed.

Lemma lower_from_blank (b : bool) (post : str) :
  blank post -> lower_from b post = post.
Proof.
  intros H. revert b. induction H as [|c post Hc _ IH]; intros b; simpl; auto.
  rewrite (space_not_capital_sigma c Hc), (space_lower U HU c Hc), IH.
  reflexivity.
Qed.

Lemma lower_from_blank_r (b : bool) (s post : str) :
  blank post -> lower_from b (s ++ post) = lower_from b s ++ post.
Proof.
  intros Hpost. revert b. induction s as [|c s IH]; intros b; simpl.
  - now apply lower_from_blank.
  - now rewrite IH, cased_ahead_blank, app_assoc.
Qed.

Lemma lower_blank_l (pre s : str) :
  blank pre -> lower (pre ++ s) = pre ++ lower s.
Proof.
  unfold lower. induction 1 as [|c pre Hc _ IH]; simpl; auto.
  rewrite (space_not_capital_sigma c Hc), (space_lower U HU c Hc).
  rewrite (space_not_ignorable U HU c Hc), (space_not_cased U HU c Hc), IH.
  reflexivity.
Qed.

(** What one character that is not white space turns into. *)
Lemma lower_chunk (c : char) (sigma : char) :
  isspace c = false -> sigma = final_sigma \/ sigma = small_sigma ->
  let chunk := if N.eqb c capital_sigma then [sigma] else tolower_full c in
  chunk <> [] /\ Forall (fun d => isspace d = false) chunk.
Proof.
  intros Hc Hs. simpl.
  destruct (sigma_not_space U HU) as (_ & Hf & Hm).
  destruct (N.eqb c capital_sigma).
  - split; [discriminate|]. constructor; auto.
    destruct Hs as [-> | ->]; auto.
  - now apply (lower_not_space U HU).
Qed.

Lemma lower_from_first (b : bool) (c : char) (s : str) :
  isspace c = false ->
  exists d r, lower_from b (c :: s) = d :: r /\ isspace d = false.
Proof.
  intros Hc. simpl.
  set (sigma := if (b && negb (cased_ahead s))%bool
                then final_sigma else small_sigma).
  assert (Hs : sigma = final_sigma \/ sigma = small_sigma).
  { subst sigma. destruct (b && negb (cased_ahead s))%bool; auto. }
  destruct (lower_chunk c sigma Hc Hs) as [Hne Hall].
  destruct (if N.eqb c capital_sigma then [sigma] else tolower_full c)
    as [|d r]; [congruence|].
  inversion Hall; subst. simpl. eauto.
Qed.

Lemma lower_from_last (b : bool) (s : str) (c : char) :
  isspace c = false ->
  exists r d, lower_from b (s ++ [c]) = r ++ [d] /\ isspace d = false.
Proof.
  intros Hc. revert b. induction s as [|x s IH]; intros b.
  - simpl. rewrite app_nil_r.
    set (sigma := if (b && negb false)%bool then final_sigma else small_sigma).
    assert (Hs : sigma = final_sigma \/ sigma = small_sigma).
    { subst sigma. destruct (b && negb false)%bool; auto. }
    destruct (lower_chunk c sigma Hc Hs) as [Hne Hall].
    destruct (exists_last Hne) as (r & d & E). rewrite E in *.
    exists r, d. split; auto.
    rewrite Forall_forall in Hall. apply Hall, in_or_app. simpl; auto.
  - simpl.
    destruct (IH (if case_ignorable x then b else cased x)) as (r & d & E & Hd).
    rewrite E. eexists _, d. split; [|exact Hd].
    now rewrite app_assoc.
Qed.

Lemma lower_trimmed (s : str) : trimmed s -> trimmed (lower s).
Proof.
  intros H. destruct (trimmed_ends s H) as [-> | [(c & r & E & Hc) (q & d & E' & Hd)]].
  - split; reflexivity.
  - unfold lower. apply ends_trimmed.
    + rewrite E. now apply lower_from_first.
    + rewrite E'. now apply lower_from_last.
Qed.

Lemma lower_strip (s : str) : lower (strip s) = strip (lower s).
Proof.
  destruct (strip_split s) as (pre & post & E & Hpre & Hpost).
  assert (E' : lower s = pre ++ lower (strip s) ++ post).
  { rewrite E at 1. rewrite lower_blank_l by assumption.
    unfold lower. now rewrite lower_from_blank_r. }
  rewrite E'. symmetry. apply strip_padded; auto.
  apply lower_trimmed, strip_trimmed.
Qed.

End PaddingInvariance.

Section TokenInvariance.

Context {U : Unicode}.
Hypothesis HU : coherent U.

(** *** White space around a text adds no token *)

Lemma space_not_word (c : char) : isspace c = true -> is_word c = false.
Proof.
  intros Hc. unfold is_word.
  rewrite (space_not_alnum U HU c Hc). simpl.
  apply N.eqb_neq. intros ->.
  pose proof (underscore_not_space U HU). congruence.
Qed.

Lemma space_not_in_class (c : char) : isspace c = true -> in_class c = false.
Proof.
  intros Hc. unfold in_class. rewrite (space_not_word c Hc). simpl.
  apply N.eqb_neq. intros ->.
  pose proof (apostrophe_not_space U HU). congruence.
Qed.

Lemma scan_before (b1 b2 : option char) (s : str) (k : nat) :
  word_side b1 = word_side b2 -> scan b1 s k = scan b2 s k.
Proof.
  intros H. destruct s as [|c s]; simpl; auto.
  destruct k; auto.
  unfold at_boundary. now rewrite H.
Qed.

Lemma scan_blank (b : option char) (post : str) (k : nat) :
  blank post -> scan b post k = [].
Proof.
  intros H. revert b k.
  induction H as [|c post Hc _ IH]; intros b k; simpl; auto.
  destruct k; auto.
  now rewrite (space_not_in_class c Hc), andb_false_r.
Qed.

Lemma match_more_blank (last : char) (s post : str) :
  blank post -> match_more last (s ++ post) = match_more last s.
Proof.
  intros Hpost. revert last. induction s as [|c s IH]; intros last; simpl.
  - destruct Hpost as [|d post Hd _]; simpl; auto.
    rewrite (space_not_in_class d Hd).
    unfold at_boundary. simpl. now rewrite (space_not_word d Hd).
  - now rewrite IH.
Qed.

Lemma scan_blank_r (b : option char) (s post : str) (k : nat) :
  blank post -> scan b (s ++ post) k = scan b s k.
Proof.
  intros Hpost. revert b k. induction s as [|c s IH]; intros b k.
  - simpl. now apply scan_blank.
  - simpl. destruct k; auto.
    rewrite match_more_blank by assumption.
    destruct (at_boundary b (Some c) && in_class c)%bool; auto.
    destruct (match_more c s); auto.
    now rewrite IH.
Qed.

Lemma findall_blank_l (pre s : str) :
  blank pre -> findall (pre ++ s) = findall s.
Proof.
  unfold findall. induction 1 as [|c pre Hc _ IH]; simpl; auto.
  rewrite (space_not_in_class c Hc), andb_false_r, <- IH.
  apply scan_before. simpl. now apply space_not_word.
Qed.

Lemma findall_strip (s : str) : findall (strip s) = findall s.
Proof.
  destruct (strip_split s) as (pre & post & E & Hpre & Hpost).
  rewrite E at 2. rewrite findall_blank_l by assumption.
  unfold findall. now rewrite scan_blank_r.
Qed.

End TokenInvariance.

Section TokenShape.

Context {U : Unicode}.

(** *** Every match is a run bounded by word boundaries *)

Lemma last_char_snoc (s : str) (c : char) : last_char (s ++ [c]) = Some c.
Proof.
  induction s as [|d s IH]; simpl; auto.
  destruct (s ++ [c]) eqn:E; auto.
  destruct s; discriminate.
Qed.

Lemma match_more_sound (s : str) :
  forall last m,
    match_more last s = Some m ->
    exists post,
      s = m ++ post
      /\ Forall (fun c => in_class c = true) m
      /\ at_boundary (last_char (last :: m)) (first_char post) = true.
Proof.
  induction s as [|c s IH]; intros last m H; simpl in H.
  - destruct (at_boundary (Some last) None) eqn:B; [|discriminate].
    injection H as <-. exists []. auto.
  - assert (Hstop : (if at_boundary (Some last) (Some c) then Some [] else None)
                    = Some m ->
                    exists post, c :: s = m ++ post
                      /\ Forall (fun c => in_class c = true) m
                      /\ at_boundary (last_char (last :: m)) (first_char post)
                         = true).
    { destruct (at_boundary (Some last) (Some c)) eqn:B; [|discriminate].
      intros E. injection E as <-. exists (c :: s). auto. }
    destruct (in_class c) eqn:C; auto.
    destruct (match_more c s) as [m'|] eqn:M; auto.
    injection H as <-.
    destruct (IH c m' M) as (post & -> & Hall & Hb).
    exists post. repeat split; auto.
Qed.

Lemma match_at_sound (before : option char) (s tok : str) :
  match_at before s = Some tok ->
  exists post,
    s = tok ++ post
    /\ tok <> []
    /\ Forall (fun c => in_class c = true) tok
    /\ at_boundary before (first_char tok) = true
    /\ at_boundary (last_char tok) (first_char post) = true.
Proof.
  destruct s as [|c s]; simpl; [discriminate|].
  destruct (at_boundary before (Some c)) eqn:B; simpl; [|discriminate].
  destruct (in_class c) eqn:C; [|discriminate].
  destruct (match_more c s) as [m|] eqn:M; [|discriminate].
  intros E. injection E as <-.
  destruct (match_more_sound s c m M) as (post & -> & Hall & Hb).
  exists post. repeat split; auto. discriminate.
Qed.

Lemma scan_cons (before : option char) (c : char) (s : str) (k : nat) :
  scan before (c :: s) k
  = match k with
    | S k' => scan (Some c) s k'
    | O =>
        match match_at before (c :: s) with
        | Some tok => tok :: scan (Some c) s (length tok - 1)
        | None => scan (Some c) s 0
        end
    end.
Proof. reflexivity. Qed.

Lemma scan_sound (s : str) :
  forall done k tok,
    In tok (scan (last_char done) s k) ->
    exists pre post, done ++ s = pre ++ tok ++ post /\ bounded_run pre tok post.
Proof.
  induction s as [|c s IH]; intros done k tok H; [destruct H|].
  rewrite scan_cons in H.
  assert (Hrest : forall j, In tok (scan (Some c) s j) ->
            exists pre post,
              done ++ c :: s = pre ++ tok ++ post /\ bounded_run pre tok post).
  { intros j Hj. rewrite <- (last_char_snoc done c) in Hj.
    destruct (IH _ _ _ Hj) as (pre & post & E & Hb).
    exists pre, post. split; auto.
    rewrite <- E, <- app_assoc. reflexivity. }
  destruct k as [|k]; [|eauto].
  destruct (match_at (last_char done) (c :: s)) as [t|] eqn:M; [|eauto].
  destruct H as [-> | H]; [|eauto].
  destruct (match_at_sound _ _ _ M) as (post & E & Hne & Hall & Hb1 & Hb2).
  exists done, post. rewrite E. repeat split; auto.
Qed.

Lemma findall_sound (s tok : str) :
  In tok (findall s) ->
  exists pre post, s = pre ++ tok ++ post /\ bounded_run pre tok post.
Proof.
  intros H. apply (scan_sound s [] 0 tok H).
Qed.

End TokenShape.

Section WordCount.

Context {U : Unicode}.

(** C5: [words] is the number of matches of the word pattern in the
    lower-cased trimmed text, which is also the number of its matches in
    the lower-cased text as it was passed in; and each of these matches is
    a run of word characters or apostrophes bounded by word boundaries. *)
Theorem word_count_tokens (HU : coherent U) scorer text :
  words (run scorer (analyze_text text))
  = length (findall (lower (strip text)))
  /\ words (run scorer (analyze_text text)) = length (findall (lower text))
  /\ (forall tok,
        In tok (findall (lower text)) ->
        exists pre post,
          lower text = pre ++ tok ++ post /\ bounded_run pre tok post).
Proof.
  rewrite run_words. split; [|split]; auto.
  - now rewrite (lower_strip HU), (findall_strip HU).
  - intros tok. apply findall_sound.
Qed.

End WordCount.

(** ** Determinism *)

Section Determinism.

Context {U : Unicode}.

Lemma run_state_analyze_text (W : Type) (scorer : str -> W -> Scores * W)
    (text : str) (w : W) :
  snd (run_state scorer (analyze_text text) w)
  = if nonempty (strip text) then snd (scorer (strip text) w) else w.
Proof.
  unfold analyze_text. destruct (nonempty (strip text)); simpl; auto.
  destruct (scorer (strip text) w); reflexivity.
Qed.

(** C8, amended: two runs on the same text with scorers that agree on the
    trimmed text return the same record; the only thing [analyze_text]
    does besides computing its result is to call the scorer, at most once
    and on the trimmed text, so a state that the scorer keeps is changed
    by that call alone. *)
Theorem deterministic_on_trimmed (text : str) (scorer1 scorer2 : str -> Scores)
    (H : scorer1 (strip text) = scorer2 (strip text)) :
  run scorer1 (analyze_text text) = run scorer2 (analyze_text text)
  /\ calls scorer1 (analyze_text text) = calls scorer2 (analyze_text text)
  /\ (forall (W : Type) (scorer : str -> W -> Scores * W) (w : W),
        snd (run_state scorer (analyze_text text) w)
        = if nonempty (strip text) then snd (scorer (strip text) w) else w).
Proof.
  split; [|split].
  - unfold analyze_text. destruct (nonempty (strip text)); simpl; auto.
    now rewrite H.
  - now rewrite !calls_analyze_text.
  - intros. apply run_state_analyze_text.
Qed.

End Determinism.

(** * Tables with nothing beyond ASCII *)

Module Ascii7Facts.

Import Ascii7.

Ltac bounds :=
  unfold space7, alnum7, cased7, ignorable7, between in *;
  repeat rewrite ?orb_true_iff, ?andb_true_iff, ?orb_false_iff,
    ?andb_false_iff, ?N.leb_le, ?N.leb_gt, ?N.eqb_eq, ?N.eqb_neq in *;
  lia.

Ltac tables :=
  unfold isspace, isalnum, tolower_full, cased, case_ignorable, is_ascii in *;
  simpl in *.

Lemma coherent_ascii_only : coherent ascii_only.
Proof.
  split; try reflexivity.
  - intros c H. tables. destruct (N.ltb c 128); [bounds | reflexivity].
  - intros c H. tables. destruct (N.ltb c 128); [|discriminate].
    unfold lower7. replace (between 65 90 c) with false; auto.
    symmetry. bounds.
  - intros c H. tables. destruct (N.ltb c 128); [bounds | reflexivity].
  - intros c H. tables. destruct (N.ltb c 128); [bounds | reflexivity].
  - repeat split.
  - intros c H. tables. destruct (N.ltb c 128) eqn:A.
    + unfold lower7. split; [discriminate|].
      repeat constructor. rewrite N.ltb_lt in A.
      destruct (between 65 90 c) eqn:E.
      * replace (N.ltb (c + 32) 128) with true; [bounds|].
        symmetry. apply N.ltb_lt. bounds.
      * apply N.ltb_lt in A. now rewrite A.
    + split; [discriminate|]. repeat constructor. now rewrite A.
Qed.

End Ascii7Facts.

(** * Examples *)

Section Sample.

Context {U : Unicode}.

(** C4: the text "Good good bad! great, GREAT." has the tokens good, good,
    bad, great, great; [words] is 5 and [top_words] is (good, 2),
    (great, 2), (bad, 1), where good stands before great because it
    occurs first (at token 0, great at token 3). *)
Theorem sample_analysis :
  findall (lower (strip sample))
  = [py "good"; py "good"; py "bad"; py "great"; py "great"]
  /\ (forall scorer,
        words (run scorer (analyze_text sample)) = 5
        /\ top_words (run scorer (analyze_text sample))
           = [(py "good", 2); (py "great", 2); (py "bad", 1)])
  /\ first_index (py "good") (findall (lower (strip sample))) = 0
  /\ first_index (py "great") (findall (lower (strip sample))) = 3.
Proof.
  split; [vm_compute; reflexivity|].
  split; [|split; vm_compute; reflexivity].
  intros scorer. rewrite run_words, run_top_words.
  split; vm_compute; reflexivity.
Qed.

(** The word pattern on a few texts with apostrophes. *)
Example findall_contraction :
  findall (py "don't stop") = [py "don't"; py "stop"].
Proof. vm_compute. reflexivity. Qed.

Example findall_quoted : findall (py "'hello'") = [py "hello"].
Proof. vm_compute. reflexivity. Qed.

Example findall_apostrophes :
  findall (py "rock 'n' roll") = [py "rock"; py "n"; py "roll"]
  /\ findall (py "x_1 -- y's!") = [py "x_1"; py "y's"]
  /\ findall (py "it''s") = [py "it''s"]
  /\ findall (py "'") = [].
Proof. vm_compute. repeat split. Qed.

End Sample.

(** * Examples on tables with nothing beyond ASCII *)

Section Examples.

#[local] Existing Instance ascii_only.

(** C8 as stated fails: the two scorers agree on the text " good", which
    is what is passed in, yet the results differ, because the scorer is
    asked about the trimmed text "good". *)
Lemma agreement_on_input_not_enough :
  indifferent padded_good = likes_good padded_good
  /\ run indifferent (analyze_text padded_good)
     <> run likes_good (analyze_text padded_good).
Proof.
  split; [reflexivity|].
  intros H. apply (f_equal sentiment_label) in H.
  vm_compute in H. discriminate.
Qed.

Lemma deterministic_on_trimmed_witness :
  likes_good (strip padded_good) = dislikes_padding (strip padded_good)
  /\ likes_good padded_good <> dislikes_padding padded_good
  /\ run likes_good (analyze_text padded_good)
     = run dislikes_padding (analyze_text padded_good).
Proof.
  split; [reflexivity|]. split.
  - intros H. apply (f_equal neg) in H. vm_compute in H.
    apply (f_equal PrimFloat.is_zero) in H. vm_compute in H. discriminate.
  - apply (deterministic_on_trimmed padded_good likes_good dislikes_padding).
    reflexivity.
Defined.

Lemma empty_text_result_witness :
  strip only_blanks = []
  /\ analyze_text only_blanks = Ret empty_result
  /\ run likes_good (analyze_text only_blanks) = empty_result.
Proof.
  assert (H : strip only_blanks = []) by reflexivity.
  destruct (empty_text_result only_blanks H) as (H1 & _ & H3 & _).
  split; [exact H|]. split; [exact H1 | apply H3].
Defined.

Lemma preview_truncation_witness :
  200 < length (strip long_text)
  /\ preview (run indifferent (analyze_text long_text))
     = repeat 97%N 200 ++ py "..."
  /\ length (preview (run indifferent (analyze_text long_text))) = 203.
Proof.
  assert (H : 200 < length (strip long_text)).
  { apply Nat.ltb_lt. vm_compute. reflexivity. }
  destruct (preview_truncation indifferent long_text) as [Hlong _].
  destruct (Hlong H) as [E L].
  split; [exact H|]. split; [rewrite E; vm_compute; reflexivity | exact L].
Defined.

Lemma top_words_ranking_witness :
  first_index (py "good") (findall (lower (strip sample)))
  < first_index (py "great") (findall (lower (strip sample))).
Proof.
  destruct (top_words_ranking indifferent sample) as (_ & _ & Hties & _).
  apply (Hties 0 1 (py "good") (py "great") 2); [lia | reflexivity | reflexivity].
Defined.

Lemma word_count_tokens_witness :
  coherent ascii_only
  /\ words (run indifferent (analyze_text (py "  Hello, World  "))) = 2
  /\ length (findall (lower (py "  Hello, World  "))) = 2.
Proof.
  split; [exact Ascii7Facts.coherent_ascii_only|].
  destruct (word_count_tokens Ascii7Facts.coherent_ascii_only indifferent
              (py "  Hello, World  ")) as (H1 & H2 & _).
  split; [rewrite H1 | rewrite <- H2, H1]; reflexivity.
Defined.

End Examples.


(** * Properties of the presentation code *)

(** ** Decimal numbers *)

Lemma digits_are_digits (d : Decimal.uint) : Forall is_digit (digits d).
Proof.
  induction d; simpl; constructor; auto; unfold is_digit; lia.
Qed.

Lemma digits_inj (d d' : Decimal.uint) : digits d = digits d' -> d = d'.
Proof.
  revert d'. induction d; destruct d'; simpl; intros H;
    try discriminate; try reflexivity;
    injection H as H; f_equal; auto.
Qed.

Lemma str_of_int_inj (n m : nat) : str_of_int n = str_of_int m -> n = m.
Proof.
  intros H. apply digits_inj in H.
  now apply DecimalNat.Unsigned.to_uint_inj.
Qed.

Lemma str_of_int_digits (n : nat) : Forall is_digit (str_of_int n).
Proof. apply digits_are_digits. Qed.

Lemma not_digit_not_in (c : char) (n : nat) :
  ~ is_digit c -> ~ In c (str_of_int n).
Proof.
  intros Hc Hin. pose proof (str_of_int_digits n) as H.
  rewrite Forall_forall in H. auto.
Qed.

(** ** Splitting at a separator *)

Lemma split_at_first {A : Type} (x : A) (l1 l2 r1 r2 : list A) :
  ~ In x l1 -> ~ In x l2 ->
  l1 ++ x :: r1 = l2 ++ x :: r2 -> l1 = l2 /\ r1 = r2.
Proof.
  revert l2. induction l1 as [|a l1 IH]; intros [|b l2] H1 H2 E; simpl in *.
  - injection E as E. auto.
  - injection E as -> E. tauto.
  - injection E as -> E. tauto.
  - injection E as -> E.
    destruct (IH l2) as [-> ->]; auto.
Qed.

(** ** [format_top_words] *)

Lemma frequency_line_shape (index : nat) (word : str) (count : nat) :
  frequency_line index word count
  = str_of_int index
    ++ 46%N :: 32%N :: word
    ++ 32%N :: 45%N :: 32%N :: str_of_int count ++ 32%N :: py "time(s)".
Proof.
  unfold frequency_line.
  change (py ". ") with [46%N; 32%N].
  change (py " - ") with [32%N; 45%N; 32%N].
  change (py " time(s)") with (32%N :: py "time(s)").
  simpl. repeat (rewrite <- app_assoc; simpl). reflexivity.
Qed.

Lemma frequency_line_inj i w c i' w' c' :
  ~ In space w -> ~ In space w' ->
  frequency_line i w c = frequency_line i' w' c' ->
  i = i' /\ w = w' /\ c = c'.
Proof.
  intros Hw Hw' E. rewrite !frequency_line_shape in E.
  assert (Hdot : ~ is_digit 46%N) by (unfold is_digit; lia).
  assert (Hsp : ~ is_digit 32%N) by (unfold is_digit; lia).
  apply split_at_first in E; auto using not_digit_not_in.
  destruct E as [Ei E]. injection E as E.
  apply split_at_first in E; auto.
  destruct E as [Ew E]. injection E as E.
  apply split_at_first in E; auto using not_digit_not_in.
  destruct E as [Ec _].
  apply str_of_int_inj in Ei, Ec. auto.
Qed.

Lemma frequency_lines_length index top :
  length (frequency_lines index top) = length top.
Proof.
  revert index. induction top as [|[w c] top IH]; intros index; simpl; auto.
Qed.

Lemma frequency_lines_nth index top i w c :
  nth_error top i = Some (w, c) ->
  nth_error (frequency_lines index top) i = Some (frequency_line (index + i) w c).
Proof.
  revert index i. induction top as [|[w0 c0] top IH]; intros index i H.
  - destruct i; discriminate.
  - destruct i as [|i]; simpl in *.
    + injection H as -> ->. now rewrite Nat.add_0_r.
    + rewrite (IH (S index) i H). do 2 f_equal. lia.
Qed.

Lemma frequency_lines_inj index top top' :
  spaceless top -> spaceless top' ->
  frequency_lines index top = frequency_lines index top' -> top = top'.
Proof.
  intros H. revert index top'.
  induction H as [|[w c] top Hw _ IH]; intros index top' H' E.
  - destruct top' as [|[w' c'] top']; [reflexivity | discriminate].
  - destruct H' as [|[w' c'] top' Hw' H']; [discriminate|].
    simpl in E. injection E as E1 E2.
    apply frequency_line_inj in E1; auto.
    destruct E1 as (_ & -> & ->).
    f_equal. eapply IH; eauto.
Qed.

Lemma frequency_line_not_placeholder w c : frequency_line 1 w c <> no_words_line.
Proof.
  rewrite frequency_line_shape. intros E.
  apply (f_equal (@hd_error _)) in E. vm_compute in E. discriminate.
Qed.

(** X1: for an empty list [format_top_words] gives the one line that says
    that no words were detected; otherwise it gives exactly one line per
    item, in the order of the items, and the line at position [i] carries
    the number [i + 1], the word and its count. *)
Theorem format_top_words_lines (top : list (str * nat)) :
  (top = [] -> format_top_words top = [no_words_line])
  /\ (top <> [] ->
      length (format_top_words top) = length top
      /\ forall i w c,
           nth_error top i = Some (w, c) ->
           nth_error (format_top_words top) i
           = Some (frequency_line (i + 1) w c)).
Proof.
  split.
  - intros ->. reflexivity.
  - intros H. destruct top as [|item top]; [congruence|].
    unfold format_top_words. split.
    + apply frequency_lines_length.
    + intros i w c Hi. rewrite (frequency_lines_nth 1 _ i w c Hi).
      do 2 f_equal. lia.
Qed.

(** X2: the lines tell the items apart: two lists whose words hold no
    space and that are formatted to the same lines are the same list. *)
Theorem format_top_words_injective (top top' : list (str * nat))
    (H : spaceless top) (H' : spaceless top')
    (E : format_top_words top = format_top_words top') :
  top = top'.
Proof.
  destruct top as [|[w c] top], top' as [|[w' c'] top']; auto.
  - cbn [format_top_words frequency_lines] in E.
    assert (E1 : frequency_line 1 w' c' = no_words_line) by congruence.
    now apply frequency_line_not_placeholder in E1.
  - cbn [format_top_words frequency_lines] in E.
    assert (E1 : frequency_line 1 w c = no_words_line) by congruence.
    now apply frequency_line_not_placeholder in E1.
  - now apply (frequency_lines_inj 1).
Qed.

Section FrequencyTable.

Context {U : Unicode}.

Lemma space_not_in_class_char : in_class space = false.
Proof. reflexivity. Qed.

Lemma token_spaceless (s tok : str) : In tok (findall s) -> ~ In space tok.
Proof.
  intros H Hsp.
  destruct (findall_sound s tok H) as (pre & post & _ & _ & Hall & _).
  rewrite Forall_forall in Hall. specialize (Hall space Hsp).
  rewrite space_not_in_class_char in Hall. discriminate.
Qed.

Lemma most_common_nil (tokens : list str) :
  most_common 5 (Counter tokens) = [] <-> tokens = [].
Proof.
  split.
  - intros E. apply length_zero_iff_nil.
    rewrite <- total_Counter.
    assert (Hc : Counter tokens = []).
    { unfold most_common in E.
      pose proof (Permutation_length (sorted_desc_perm (Counter tokens))) as L.
      destruct (sorted_desc (Counter tokens)); [|discriminate].
      now apply length_zero_iff_nil. }
    now rewrite Hc.
  - intros ->. reflexivity.
Qed.

(** X3: the frequency table of an analysis has between one and five
    lines; it is the line that says that no words were detected exactly
    when the word count is 0; and the listed words hold no space, so the
    lines determine the listed words and counts. *)
Theorem frequency_table_of_analysis scorer text :
  let r := run scorer (analyze_text text) in
  1 <= length (format_top_words (top_words r)) <= 5
  /\ (format_top_words (top_words r) = [no_words_line] <-> words r = 0)
  /\ spaceless (top_words r).
Proof.
  intros r. subst r. rewrite run_top_words, run_words.
  set (tokens := findall (lower (strip text))).
  pose proof (most_common_nil tokens) as Hnil.
  pose proof (most_common_length 5 (Counter tokens)) as Hlen.
  split; [|split].
  - destruct (most_common 5 (Counter tokens)) as [|item top] eqn:E.
    + simpl. lia.
    + unfold format_top_words. rewrite frequency_lines_length. simpl in *. lia.
  - rewrite length_zero_iff_nil, <- Hnil.
    destruct (most_common 5 (Counter tokens)) as [|[w c] top] eqn:E.
    + split; reflexivity.
    + split; [|discriminate].
      cbn [format_top_words frequency_lines]. intros E'.
      assert (E1 : frequency_line 1 w c = no_words_line) by congruence.
      now apply frequency_line_not_placeholder in E1.
  - apply Forall_forall. intros [w c] Hin.
    apply most_common_In, In_keys in Hin.
    apply (cw_keys _ _ (Counter_counts_words tokens)) in Hin.
    simpl. now apply (token_spaceless (lower (strip text))).
Qed.

End FrequencyTable.

(** ** [print_panel] *)

Lemma center_shape (s : str) (width : nat) :
  length s + 4 <= width ->
  exists l r,
    center s width = repeat space l ++ s ++ repeat space r
    /\ l + length s + r = width
    /\ 2 <= l /\ 2 <= r
    /\ (l = r \/ l = r + 1 \/ r = l + 1).
Proof.
  intros H. unfold center.
  assert (E : (width <=? length s) = false) by (apply Nat.leb_gt; lia).
  rewrite E.
  remember (width - length s) as marg eqn:Em.
  assert (Hm : 4 <= marg) by lia.
  pose proof (Nat.div_mod_eq marg 2) as Hdiv.
  pose proof (Nat.mod_upper_bound marg 2) as Hmod.
  destruct (Nat.odd marg && Nat.odd width)%bool eqn:F.
  - apply andb_true_iff in F. destruct F as [F _].
    apply Nat.odd_spec in F. destruct F as [k Hk].
    exists (marg / 2 + 1), (marg - (marg / 2 + 1)).
    split; [reflexivity|]. lia.
  - exists (marg / 2 + 0), (marg - (marg / 2 + 0)).
    split; [reflexivity|]. lia.
Qed.

Lemma center_length (s : str) (width : nat) :
  length s <= width -> length (center s width) = width.
Proof.
  intros H. unfold center. destruct (width <=? length s) eqn:E.
  - apply Nat.leb_le in E. lia.
  - apply Nat.leb_gt in E. rewrite !length_app, !repeat_length.
    remember (width - length s) as marg eqn:Em.
    pose proof (Nat.div_mod_eq marg 2) as Hdiv.
    pose proof (Nat.mod_upper_bound marg 2) as Hmod.
    destruct (Nat.odd marg && Nat.odd width)%bool eqn:F; [|lia].
    apply andb_true_iff in F. destruct F as [F _].
    apply Nat.odd_spec in F. destruct F as [k Hk]. lia.
Qed.

Lemma ljust_length (s : str) (width : nat) :
  length s <= width -> length (ljust s width) = width.
Proof.
  intros H. unfold ljust. destruct (width <=? length s) eqn:E.
  - apply Nat.leb_le in E. lia.
  - rewrite length_app, repeat_length. lia.
Qed.

Lemma framed_length (s : str) : length (py "| " ++ s ++ py " |") = length s + 4.
Proof. rewrite !length_app. simpl. lia. Qed.

Lemma panel_width_bounds (title : str) (lines : list str) :
  48 <= panel_width title lines
  /\ length title + 4 <= panel_width title lines
  /\ Forall (fun line => length line <= panel_width title lines) lines.
Proof.
  unfold panel_width. repeat split; try lia.
  apply Forall_forall. intros line Hin.
  assert (H : Forall (fun k => k <= list_max (map (@length char) lines))
                (map (@length char) lines)) by now apply list_max_le.
  rewrite Forall_forall in H.
  specialize (H (length line) (in_map _ _ _ Hin)). lia.
Qed.

Section PanelFacts.

Variable wrap : str -> nat -> list str.

Lemma wrapped_nonempty (w : nat) (line : str) : 1 <= length (wrapped wrap w line).
Proof.
  unfold wrapped. destruct (wrap line w); simpl; lia.
Qed.

Lemma rows_count (w : nat) (lines : list str) :
  length lines
  <= length (flat_map (fun line => map (panel_row w) (wrapped wrap w line)) lines).
Proof.
  induction lines as [|line lines IH]; simpl; auto.
  rewrite length_app, length_map.
  pose proof (wrapped_nonempty w line). lia.
Qed.

(** X4: when wrapping keeps every segment within the width it is given,
    every string of a panel but the empty one that ends it has the same
    length: the inner width and four more, the inner width being the
    largest of 48, the length of the title and four more, and the lengths
    of the lines. *)
Theorem print_panel_uniform_width
    (Hwrap : forall line w,
        48 <= w -> Forall (fun segment => length segment <= w) (wrap line w))
    (title : str) (lines : list str) :
  exists rows,
    print_panel wrap title lines = rows ++ [[]]
    /\ Forall (fun row => length row = panel_width title lines + 4) rows.
Proof.
  destruct (panel_width_bounds title lines) as (H48 & Htitle & Hlines).
  unfold print_panel.
  set (w := panel_width title lines) in *.
  set (border := py "+" ++ repeat 45%N (w + 2) ++ py "+").
  exists ([border; py "| " ++ center title w ++ py " |";
           py "| " ++ repeat 45%N w ++ py " |"]
          ++ flat_map (fun line => map (panel_row w) (wrapped wrap w line)) lines
          ++ [border]).
  split.
  - rewrite <- !app_assoc. reflexivity.
  - assert (Hb : length border = w + 4).
    { subst border. rewrite !length_app, repeat_length. simpl. lia. }
    apply Forall_app. split; [|apply Forall_app; split].
    + repeat constructor; auto.
      * rewrite framed_length, center_length; lia.
      * rewrite framed_length, repeat_length. lia.
    + apply Forall_forall. intros row Hrow.
      apply in_flat_map in Hrow. destruct Hrow as (line & _ & Hrow).
      apply in_map_iff in Hrow. destruct Hrow as (segment & <- & Hseg).
      unfold panel_row. rewrite framed_length, ljust_length; auto.
      unfold wrapped in Hseg.
      pose proof (Hwrap line w H48) as Hall. rewrite Forall_forall in Hall.
      destruct (wrap line w) as [|s0 ss] eqn:E.
      * destruct Hseg as [<- | []]. simpl. lia.
      * now apply Hall.
    + repeat constructor. exact Hb.
Qed.

(** X5: whatever wrapping does, the second string of a panel is the title
    between the frame, with at least two spaces on either side of it and
    the two margins differing by at most one; and a panel has at least six
    strings and one more for every line, a line that wraps to nothing
    still getting a row. *)
Theorem print_panel_title_and_rows (title : str) (lines : list str) :
  (exists l r,
      nth_error (print_panel wrap title lines) 1
      = Some (py "| " ++ (repeat space l ++ title ++ repeat space r) ++ py " |")
      /\ l + length title + r = panel_width title lines
      /\ 2 <= l /\ 2 <= r /\ (l = r \/ l = r + 1 \/ r = l + 1))
  /\ 5 + length lines <= length (print_panel wrap title lines).
Proof.
  destruct (panel_width_bounds title lines) as (_ & Htitle & _).
  split.
  - destruct (center_shape title (panel_width title lines) Htitle)
      as (l & r & E & Hsum & Hl & Hr & Hlr).
    exists l, r. unfold print_panel. simpl. rewrite E. auto.
  - unfold print_panel. rewrite !length_app. simpl.
    pose proof (rows_count (panel_width title lines) lines). lia.
Qed.

End PanelFacts.

(** ** The console prompts *)

Lemma print_each_pending rows c : pending (print_each rows c) = pending c.
Proof.
  unfold print_each. revert c.
  induction rows as [|row rows IH]; intros c; simpl; auto.
  now rewrite IH.
Qed.

Lemma print_each_written rows c :
  written (print_each rows c)
  = written c ++ map (fun row => row ++ [newline]) rows.
Proof.
  unfold print_each. revert c.
  induction rows as [|row rows IH]; intros c; simpl.
  - now rewrite app_nil_r.
  - rewrite IH. simpl. now rewrite <- app_assoc.
Qed.

Section ConsoleFacts.

Context {U : Unicode} {V : UnicodeUpper}.
Variable wrap : str -> nat -> list str.

Lemma is_choice_true (choice : str) :
  is_choice choice = true -> choice = py "1" \/ choice = py "2".
Proof.
  unfold is_choice. rewrite orb_true_iff, !str_eqb_eq. tauto.
Qed.

Lemma choice_loop_accepts (rejected : list str) (good : str) (rest out : list str) :
  Forall (fun line => is_choice (strip line) = false) rejected ->
  is_choice (strip good) = true ->
  choice_loop (rejected ++ good :: rest) out
  = (Returned (strip good),
     {| pending := rest;
        written := out ++ retry_output rejected ++ [choice_prompt] |}).
Proof.
  intros Hrej Hgood. revert out.
  induction Hrej as [|line rejected Hline _ IH]; intros out; simpl.
  - now rewrite Hgood.
  - rewrite Hline, IH. simpl. now rewrite <- !app_assoc.
Qed.

Lemma choice_loop_exhausted (rejected out : list str) :
  Forall (fun line => is_choice (strip line) = false) rejected ->
  choice_loop rejected out
  = (Raised EOFError,
     {| pending := [];
        written := out ++ retry_output rejected ++ [choice_prompt] |}).
Proof.
  intros Hrej. revert out.
  induction Hrej as [|line rejected Hline _ IH]; intros out; simpl.
  - reflexivity.
  - rewrite Hline, IH. simpl. now rewrite <- !app_assoc.
Qed.

Lemma choice_loop_outcome (lines out : list str) :
  match fst (choice_loop lines out) with
  | Returned choice => choice = py "1" \/ choice = py "2"
  | Raised e => e = EOFError /\ pending (snd (choice_loop lines out)) = []
  end.
Proof.
  revert out. induction lines as [|line lines IH]; intros out; simpl; auto.
  destruct (is_choice (strip line)) eqn:E; simpl.
  - now apply is_choice_true.
  - apply IH.
Qed.

(** X6: when the input holds, after lines that are not a choice, a line
    that trims to "1" or to "2", [prompt_input_method] returns that
    trimmed line and leaves the lines after it unread; it has written the
    panel of options, then for every rejected line the prompt and the
    request to type 1 or 2, then the prompt once more. *)
Theorem prompt_input_method_accepts (c : console)
    (rejected : list str) (good : str) (rest : list str)
    (Hrej : Forall (fun line => is_choice (strip line) = false) rejected)
    (Hgood : is_choice (strip good) = true)
    (Hin : pending c = rejected ++ good :: rest) :
  prompt_input_method wrap c
  = (Returned (strip good),
     {| pending := rest;
        written :=
          (written c
           ++ map (fun row => row ++ [newline])
                (print_panel wrap (py "Input Options") input_options))
          ++ retry_output rejected ++ [choice_prompt] |}).
Proof.
  unfold prompt_input_method.
  rewrite print_each_pending, print_each_written, Hin.
  now apply choice_loop_accepts.
Qed.

(** X7: [prompt_input_method] returns nothing but "1" or "2"; it fails
    only with [EOFError], and only once every line of the input has been
    read, which is what happens when no line is a choice. *)
Theorem prompt_input_method_outcome (c : console) :
  match fst (prompt_input_method wrap c) with
  | Returned choice => choice = py "1" \/ choice = py "2"
  | Raised e => e = EOFError /\ pending (snd (prompt_input_method wrap c)) = []
  end
  /\ (Forall (fun line => is_choice (strip line) = false) (pending c) ->
      fst (prompt_input_method wrap c) = Raised EOFError).
Proof.
  unfold prompt_input_method. split.
  - apply choice_loop_outcome.
  - intros H. rewrite print_each_pending.
    now rewrite (choice_loop_exhausted _ _ H).
Qed.

End ConsoleFacts.

Section CaptureFacts.

Context {U : Unicode} {V : UnicodeUpper}.

Lemma capture_block (block tail acc : list str) :
  Forall (fun line => is_end line = false) block ->
  capture (block ++ tail) acc = capture tail (acc ++ block).
Proof.
  intros H. revert acc. induction H as [|line block Hline _ IH]; intros acc; simpl.
  - now rewrite app_nil_r.
  - rewrite Hline, IH, <- app_assoc. reflexivity.
Qed.

Lemma nonempty_true (s : str) : nonempty s = true <-> s <> [].
Proof. destruct s; simpl; split; congruence. Qed.

Lemma read_text_from_input_returns (depth : nat) (c c' : console) (text : str) :
  read_text_from_input depth c = (Returned text, c') ->
  text <> [] /\ strip text = text.
Proof.
  revert c. induction depth as [|depth IH]; intros c H; simpl in H.
  - discriminate.
  - destruct (capture (pending c) []) as [lines rest].
    destruct (nonempty (strip (join [newline] lines))) eqn:E.
    + injection H as <- _. split.
      * now apply nonempty_true.
      * apply strip_idem.
    + eapply IH; eauto.
Qed.

(** X8: a text that [read_text_from_input] returns is never empty and has
    no white space at either end, so [analyze_text] on it asks the scorer
    exactly once, about that very text. *)
Theorem read_text_from_input_nonblank (depth : nat) (c c' : console) (text : str)
    (H : read_text_from_input depth c = (Returned text, c')) :
  text <> [] /\ strip text = text
  /\ forall scorer, calls scorer (analyze_text text) = [text].
Proof.
  destruct (read_text_from_input_returns depth c c' text H) as [Hne Hs].
  repeat split; auto.
  intros scorer. rewrite calls_analyze_text, Hs.
  apply nonempty_true in Hne. now rewrite Hne.
Qed.

(** X9: when the lines before the first sentinel line, or before the end
    of the input when there is no sentinel, join to a text that is not
    blank, [read_text_from_input] returns that text trimmed; the sentinel
    is consumed, the lines after it are left unread, and only the banner
    has been written. *)
Theorem read_text_from_input_block (depth : nat) (c : console) (block : list str)
    (Hblock : Forall (fun line => is_end line = false) block)
    (Htext : strip (join [newline] block) <> []) :
  (pending c = block ->
   read_text_from_input (S depth) c
   = (Returned (strip (join [newline] block)),
      {| pending := []; written := written c ++ [paste_banner ++ [newline]] |}))
  /\ (forall sentinel rest,
        is_end sentinel = true ->
        pending c = block ++ sentinel :: rest ->
        read_text_from_input (S depth) c
        = (Returned (strip (join [newline] block)),
           {| pending := rest;
              written := written c ++ [paste_banner ++ [newline]] |})).
Proof.
  apply nonempty_true in Htext. split.
  - intros Hin. simpl. rewrite Hin.
    rewrite <- (app_nil_r block) at 1.
    rewrite (capture_block block [] [] Hblock). simpl.
    now rewrite Htext.
  - intros sentinel rest Hend Hin. simpl. rewrite Hin.
    rewrite (capture_block block (sentinel :: rest) [] Hblock). simpl.
    now rewrite Hend, Htext.
Qed.

(** X10: at the end of the input with nothing but blank lines captured,
    [read_text_from_input] calls itself again and again and captures
    nothing: whatever the depth the interpreter allows, the call ends in
    [RecursionError]. *)
Theorem read_text_from_input_exhausted (depth : nat) (c : console)
    (Hblock : Forall (fun line => is_end line = false) (pending c))
    (Hblank : strip (join [newline] (pending c)) = []) :
  fst (read_text_from_input depth c) = Raised RecursionError.
Proof.
  revert c Hblock Hblank. induction depth as [|depth IH]; intros c Hblock Hblank.
  - reflexivity.
  - simpl.
    rewrite <- (app_nil_r (pending c)) at 1.
    rewrite (capture_block (pending c) [] [] Hblock). simpl.
    rewrite Hblank. simpl.
    apply IH; simpl; auto.
Qed.

End CaptureFacts.

(** ** The analyze button *)

Lemma run_bind {A B : Type} (scorer : str -> Scores) (p : Prog A) (f : A -> Prog B) :
  run scorer (bind p f) = run scorer (f (run scorer p)).
Proof. induction p as [a | t k IH]; simpl; auto. Qed.

Lemma calls_bind {A B : Type} (scorer : str -> Scores) (p : Prog A) (f : A -> Prog B) :
  calls scorer (bind p f)
  = calls scorer p ++ calls scorer (f (run scorer p)).
Proof. induction p as [a | t k IH]; simpl; auto. now rewrite IH. Qed.

Section WindowFacts.

Context {U : Unicode}.
Variable format_3f : float -> str.

Lemma newline_blank : blank [newline].
Proof. repeat constructor. Qed.

Lemma blank_app (a b : str) : blank a -> blank b -> blank (a ++ b).
Proof. unfold blank. intros. now apply Forall_app. Qed.

Lemma strip_blank_r (s post : str) : blank post -> strip (s ++ post) = strip s.
Proof.
  intros Hpost.
  destruct (strip_split s) as (pre & post0 & E & Hpre & Hpost0).
  rewrite E at 1. rewrite <- !app_assoc.
  apply strip_padded; auto using blank_app, strip_trimmed.
Qed.

Lemma strip_get_all (w : text_widget) : strip (get_all w) = strip (content w).
Proof. apply strip_blank_r, newline_blank. Qed.

Lemma analyze_text_trimmed (text : str) : analyze_text (strip text) = analyze_text text.
Proof. unfold analyze_text. now rewrite strip_idem. Qed.

(** X11: with an input box that is empty or holds white space only, the
    analyze button asks the scorer nothing and changes neither box; it
    shows the warning that there is no text. *)
Theorem run_analysis_blank (g : window) (H : strip (content (input_box g)) = []) :
  run_analysis format_3f g
  = Ret {| input_box := input_box g;
           output_box := output_box g;
           dialogs := dialogs g ++ [no_text_warning] |}.
Proof.
  unfold run_analysis. now rewrite strip_get_all, H.
Qed.

Lemma run_analysis_result (g : window) (scorer : str -> Scores) :
  strip (content (input_box g)) <> [] ->
  run scorer (run_analysis format_3f g)
  = {| input_box := input_box g;
       output_box :=
         {| content := report format_3f
                         (run scorer (analyze_text (content (input_box g))));
            editable := false |};
       dialogs := dialogs g |}.
Proof.
  intros H. apply nonempty_true in H.
  unfold run_analysis. rewrite strip_get_all, H, analyze_text_trimmed.
  rewrite run_bind. reflexivity.
Qed.

(** X12: with any other input box, the analyze button asks the scorer
    exactly once, about the trimmed text of the box; the output box then
    holds the report for the result that [analyze_text] gives for the text
    of the box, whatever it held before and whether or not it could be
    edited, and it cannot be edited afterwards; the input box is left as it
    was and no dialog is shown. *)
Theorem run_analysis_report (g : window) (scorer : str -> Scores)
    (H : strip (content (input_box g)) <> []) :
  calls scorer (run_analysis format_3f g) = [strip (content (input_box g))]
  /\ run scorer (run_analysis format_3f g)
     = {| input_box := input_box g;
          output_box :=
            {| content := report format_3f (run scorer (analyze_text (content (input_box g))));
               editable := false |};
          dialogs := dialogs g |}.
Proof.
  split; [|now apply run_analysis_result].
  apply nonempty_true in H.
  unfold run_analysis. rewrite strip_get_all, H, analyze_text_trimmed.
  rewrite calls_bind, calls_analyze_text, H. reflexivity.
Qed.

(** X13: pressing the analyze button a second time changes nothing: with
    the same scorer and a text that is not blank, the window after two
    runs is the window after one. *)
Theorem run_analysis_twice (g : window) (scorer : str -> Scores)
    (H : strip (content (input_box g)) <> []) :
  run scorer (run_analysis format_3f (run scorer (run_analysis format_3f g)))
  = run scorer (run_analysis format_3f g).
Proof.
  rewrite (run_analysis_result g scorer H).
  set (g' := {| input_box := input_box g;
                output_box := _; dialogs := dialogs g |}).
  rewrite (run_analysis_result g' scorer H). reflexivity.
Qed.

End WindowFacts.

(** ** Apostrophes stand inside words only *)

Section WordEnds.

Context {U : Unicode}.

Lemma is_word_in_class (c : char) : is_word c = true -> in_class c = true.
Proof. unfold in_class. intros ->. reflexivity. Qed.

Lemma last_char_cons (c : char) (l : str) : exists x, last_char (c :: l) = Some x.
Proof.
  revert c. induction l as [|d l IH]; intros c.
  - now exists c.
  - destruct (IH d) as [x E]. exists x. simpl in *. exact E.
Qed.

Lemma last_or_cons (before : option char) (c : char) (l : str) :
  last_or before (c :: l) = last_or (Some c) l.
Proof.
  unfold last_or. destruct l as [|d l]; [reflexivity|].
  destruct (last_char_cons d l) as [x E].
  change (last_char (c :: d :: l)) with (last_char (d :: l)).
  now rewrite E.
Qed.

Lemma match_more_word (s : str) :
  forall last, is_word last = true -> match_more last s <> None.
Proof.
  induction s as [|c s IH]; intros last Hl; simpl.
  - unfold at_boundary. simpl. rewrite Hl. discriminate.
  - destruct (in_class c) eqn:C.
    + destruct (match_more c s) eqn:M; [discriminate|].
      destruct (is_word c) eqn:W.
      * exfalso. now apply (IH c W).
      * unfold at_boundary. simpl. rewrite Hl, W. discriminate.
    + destruct (is_word c) eqn:W.
      * apply is_word_in_class in W. congruence.
      * unfold at_boundary. simpl. rewrite Hl, W. discriminate.
Qed.

Lemma match_more_stop (s : str) :
  forall last m,
    match_more last s = Some m ->
    exists post,
      s = m ++ post
      /\ word_side (last_or (Some last) m) = true
      /\ no_restart (last_or (Some last) m) post.
Proof.
  induction s as [|c s IH]; intros last m H; simpl in H.
  - unfold at_boundary in H. simpl in H. rewrite xorb_false_r in H.
    destruct (is_word last) eqn:Hl; [|discriminate].
    injection H as <-. exists []. unfold last_or, no_restart. simpl. auto.
  - assert (Hstop : at_boundary (Some last) (Some c) = true ->
                    match_more c s = None \/ in_class c = false ->
                    exists post,
                      c :: s = [] ++ post
                      /\ word_side (last_or (Some last) []) = true
                      /\ no_restart (last_or (Some last) []) post).
    { intros B Hc. exists (c :: s). unfold last_or, no_restart. simpl.
      assert (W : is_word c = false).
      { destruct (is_word c) eqn:W; auto. destruct Hc as [Hc | Hc].
        - exfalso. now apply (match_more_word s c W).
        - apply is_word_in_class in W. congruence. }
      unfold at_boundary in B. simpl in B. rewrite W, xorb_false_r in B.
      repeat split; auto.
      intros C. destruct Hc as [Hc | Hc]; congruence. }
    destruct (in_class c) eqn:C.
    + destruct (match_more c s) as [m'|] eqn:M.
      * injection H as <-.
        destruct (IH c m' M) as (post & -> & Hw & Hn).
        exists post. rewrite last_or_cons. auto.
      * destruct (at_boundary (Some last) (Some c)) eqn:B; [|discriminate].
        injection H as <-. auto.
    + destruct (at_boundary (Some last) (Some c)) eqn:B; [|discriminate].
      injection H as <-. auto.
Qed.

Lemma match_at_some (before : option char) (c : char) (s t : str) :
  match_at before (c :: s) = Some t ->
  at_boundary before (Some c) = true /\ in_class c = true
  /\ exists m, match_more c s = Some m /\ t = c :: m.
Proof.
  unfold match_at.
  destruct (at_boundary before (Some c)); cbn [andb]; [|discriminate].
  destruct (in_class c); [|discriminate].
  destruct (match_more c s) as [m|]; [|discriminate].
  intros E. injection E as <-. eauto.
Qed.

Lemma match_at_none (before : option char) (c : char) (s : str) :
  match_at before (c :: s) = None -> is_word c = true ->
  at_boundary before (Some c) = false.
Proof.
  unfold match_at. intros M W.
  rewrite (is_word_in_class c W), andb_true_r in M.
  destruct (at_boundary before (Some c)); auto.
  destruct (match_more c s) eqn:Mm; [discriminate|].
  exfalso. now apply (match_more_word s c W).
Qed.

Lemma scan_word_ends (s : str) :
  forall before k tok,
    k <= length s ->
    no_restart (last_or before (firstn k s)) (skipn k s) ->
    In tok (scan before s k) ->
    word_side (first_char tok) = true /\ word_side (last_char tok) = true.
Proof.
  induction s as [|c s IH]; intros before k tok Hk Hinv H; [destruct H|].
  rewrite scan_cons in H. destruct k as [|k].
  - change (no_restart before (c :: s)) in Hinv.
    destruct (match_at before (c :: s)) as [t|] eqn:M.
    + destruct (match_at_some _ _ _ _ M) as (B & C & m & Mm & ->).
      destruct (match_more_stop s c m Mm) as (post & E & Hw & Hn).
      destruct H as [<- | H].
      * split.
        -- cbn [first_char hd_error word_side].
           destruct (is_word c) eqn:W; auto.
           unfold at_boundary in B. cbn [word_side] in B.
           rewrite W, xorb_false_r in B.
           destruct (Hinv B) as [_ Hnone]. rewrite (Hnone C) in Mm. discriminate.
        -- rewrite <- (last_or_cons None) in Hw. unfold last_or in Hw.
           destruct (last_char_cons c m) as [x Ex]. now rewrite Ex in *.
      * apply (IH (Some c) (length (c :: m) - 1) tok); auto.
        -- cbn [length]. rewrite Nat.sub_succ, Nat.sub_0_r, E, length_app. lia.
        -- cbn [length]. rewrite Nat.sub_succ, Nat.sub_0_r, E.
           rewrite firstn_app, Nat.sub_diag, firstn_all, skipn_app,
             Nat.sub_diag, skipn_all. cbn [firstn skipn app].
           now rewrite app_nil_r.
    + apply (IH (Some c) 0 tok); auto; [cbn [length]; lia|].
      change (no_restart (Some c) s). intros W. exfalso.
      cbn [word_side] in W.
      pose proof (match_at_none _ _ _ M W) as B.
      unfold at_boundary in B. cbn [word_side] in B. rewrite W in B.
      assert (Hb : word_side before = true)
        by (destruct (word_side before); auto; discriminate).
      destruct (Hinv Hb) as [Hc _]. congruence.
  - apply (IH (Some c) k tok); auto; [cbn [length] in Hk; lia|].
    cbn [firstn skipn] in Hinv. now rewrite last_or_cons in Hinv.
Qed.

(** X14: every match of the word pattern begins and ends with a word
    character (a letter, a digit or an underscore): an apostrophe is part
    of a token only inside it, and the words and top words of an analysis
    never hold a token made of apostrophes alone. *)
Theorem tokens_word_ends (text tok : str) (scorer : str -> Scores) :
  (In tok (findall (lower (strip text))) ->
   word_side (first_char tok) = true /\ word_side (last_char tok) = true)
  /\ (forall w n,
        In (w, n) (top_words (run scorer (analyze_text text))) ->
        word_side (first_char w) = true /\ word_side (last_char w) = true).
Proof.
  assert (H : forall s t, In t (findall s) ->
              word_side (first_char t) = true /\ word_side (last_char t) = true).
  { intros s t Ht. apply (scan_word_ends s None 0 t); auto.
    - lia.
    - unfold last_or, no_restart. simpl. discriminate. }
  split; [apply H|].
  intros w n Hin. rewrite run_top_words in Hin.
  apply most_common_In, In_keys in Hin.
  apply (cw_keys _ _ (Counter_counts_words (findall (lower (strip text))))) in Hin.
  exact (H (lower (strip text)) w Hin).
Qed.

End WordEnds.

(** ** Blank texts *)

Section BlankText.

Context {U : Unicode}.

Lemma strip_nonspace (s : str) :
  strip s <> [] -> filter (fun c => negb (isspace c)) (strip s) <> [].
Proof.
  intros H. pose proof (lstrip_strip s) as E.
  destruct (lstrip_head (strip s)) as [E' | (c & r & E' & Hc)];
    rewrite E in E'; [congruence|].
  rewrite E'. simpl. rewrite Hc. discriminate.
Qed.

(** X15: a text is blank, that is empty once trimmed, exactly when the
    result counts no characters, exactly when it counts no characters
    other than white space, exactly when its preview is empty, and exactly
    when the scorer is not asked. *)
Theorem blank_text_signs scorer text :
  let r := run scorer (analyze_text text) in
  (strip text = [] <-> chars_with_spaces r = 0)
  /\ (strip text = [] <-> chars_without_spaces r = 0)
  /\ (strip text = [] <-> preview r = [])
  /\ (strip text = [] <-> calls scorer (analyze_text text) = []).
Proof.
  intros r. subst r.
  rewrite run_chars_with_spaces, run_chars_without_spaces, run_preview,
    calls_analyze_text.
  split; [|split; [|split]].
  - now rewrite length_zero_iff_nil.
  - rewrite length_zero_iff_nil. split.
    + intros ->. reflexivity.
    + intros E. destruct (strip text) as [|c s] eqn:Es; auto.
      exfalso. apply (strip_nonspace text); rewrite Es; [discriminate | exact E].
  - split.
    + intros ->. reflexivity.
    + destruct (200 <? length (strip text)) eqn:L; auto.
      apply Nat.ltb_lt in L. intros E.
      apply (f_equal (@length _)) in E.
      rewrite length_app, firstn_length_le in E by lia. simpl in E. lia.
  - destruct (strip text); simpl; split; congruence.
Qed.

End BlankText.

(** ** Panels whose lines fit *)

Section PlainPanel.

Variable wrap : str -> nat -> list str.

Lemma flat_map_singletons {A B : Type} (f : A -> list B) (g : A -> B) (l : list A) :
  (forall x, In x l -> f x = [g x]) -> flat_map f l = map g l.
Proof.
  induction l as [|x l IH]; intros H; simpl; auto.
  rewrite (H x) by (simpl; auto). simpl. f_equal.
  apply IH. intros y Hy. apply H. simpl; auto.
Qed.

Lemma ljust_pads (s : str) (width : nat) :
  length s <= width -> ljust s width = s ++ repeat space (width - length s).
Proof.
  intros H. unfold ljust. destruct (width <=? length s) eqn:E; auto.
  apply Nat.leb_le in E. replace (width - length s) with 0 by lia.
  simpl. now rewrite app_nil_r.
Qed.

(** X16: the inner width is never smaller than a line, so when wrapping
    leaves alone the lines that fit the width, no line of a panel is
    broken: after the border, the title and the rule comes exactly one row
    per line, the line padded with spaces to the inner width. *)
Theorem print_panel_plain_rows (title : str) (lines : list str)
    (Hfit : forall line,
        In line lines ->
        length line <= panel_width title lines ->
        wrap line (panel_width title lines) = [line]) :
  print_panel wrap title lines
  = [py "+" ++ repeat 45%N (panel_width title lines + 2) ++ py "+";
     py "| " ++ center title (panel_width title lines) ++ py " |";
     py "| " ++ repeat 45%N (panel_width title lines) ++ py " |"]
    ++ map (fun line =>
              py "| "
              ++ (line ++ repeat space (panel_width title lines - length line))
              ++ py " |")
         lines
    ++ [py "+" ++ repeat 45%N (panel_width title lines + 2) ++ py "+"; []].
Proof.
  unfold print_panel. do 2 f_equal.
  destruct (panel_width_bounds title lines) as (_ & _ & Hlines).
  rewrite Forall_forall in Hlines.
  apply flat_map_singletons. intros line Hin.
  unfold wrapped. rewrite (Hfit line Hin (Hlines line Hin)).
  simpl. unfold panel_row. now rewrite ljust_pads by (apply Hlines; auto).
Qed.

End PlainPanel.

(** ** Reading a file at the console *)

Section FileFacts.

Context {U : Unicode} {V : UnicodeUpper}.
Variable wrap : str -> nat -> list str.
Variable files : str -> option file.

Lemma path_loop_accepts (line : str) (rest out : list str) (text : str) :
  usable_text files line = Some text ->
  path_loop files (line :: rest) out
  = (Returned text, {| pending := rest; written := out ++ [path_prompt] |}).
Proof.
  unfold usable_text, file_text. simpl.
  destruct (nonempty (strip_chars [quote] (strip line))); [|discriminate].
  destruct (files (strip_chars [quote] (strip line))) as [f|]; [|discriminate].
  destruct (nonempty (strip match decoded f with
                            | Some t => t
                            | None => replaced f
                            end)); [|discriminate].
  intros E. injection E as <-. reflexivity.
Qed.

Lemma path_loop_rejects (line : str) (rest out : list str) :
  usable_text files line = None ->
  exists message,
    path_loop files (line :: rest) out
    = path_loop files rest (out ++ [path_prompt; message ++ [newline]]).
Proof.
  unfold usable_text, file_text. simpl.
  destruct (nonempty (strip_chars [quote] (strip line))).
  - destruct (files (strip_chars [quote] (strip line))) as [f|].
    + destruct (nonempty (strip match decoded f with
                                | Some t => t
                                | None => replaced f
                                end)); [discriminate|].
      intros _. exists file_empty. now rewrite <- app_assoc.
    + intros _. exists file_not_found. now rewrite <- app_assoc.
  - intros _. exists path_missing. now rewrite <- app_assoc.
Qed.

Lemma usable_text_nonblank (line text : str) :
  usable_text files line = Some text -> strip text <> [].
Proof.
  unfold usable_text.
  destruct (nonempty (strip_chars [quote] (strip line))); [|discriminate].
  destruct (files (strip_chars [quote] (strip line))) as [f|]; [|discriminate].
  destruct (nonempty (strip (file_text f))) eqn:E; [|discriminate].
  intros H. injection H as <-. now apply nonempty_true.
Qed.

Lemma path_loop_outcome (lines out : list str) :
  match fst (path_loop files lines out) with
  | Returned text =>
      exists line, In line lines /\ usable_text files line = Some text
  | Raised e =>
      e = EOFError
      /\ pending (snd (path_loop files lines out)) = []
      /\ Forall (fun line => usable_text files line = None) lines
  end.
Proof.
  revert out. induction lines as [|line lines IH]; intros out.
  - simpl. auto.
  - destruct (usable_text files line) as [text|] eqn:E.
    + rewrite (path_loop_accepts line lines out text E). simpl.
      exists line. simpl; auto.
    + destruct (path_loop_rejects line lines out E) as [message ->].
      specialize (IH (out ++ [path_prompt; message ++ [newline]])).
      destruct (fst (path_loop files lines _)) as [text|e].
      * destruct IH as (l & Hl & Hu). exists l. simpl; auto.
      * destruct IH as (He & Hp & Hall). auto.
Qed.

Lemma calls_nonblank (text : str) (scorer : str -> Scores) :
  strip text <> [] -> calls scorer (analyze_text text) = [strip text].
Proof.
  intros H. apply nonempty_true in H. now rewrite calls_analyze_text, H.
Qed.



(** X19: whichever way the user chooses, a text that [collect_text]
    returns is not blank: [analyze_text] on it asks the scorer exactly
    once, about the trimmed text, the scores of the result are the
    scorer's, and the preview is not empty. *)
Theorem collect_text_nonblank (depth : nat) (c c' : console) (text : str)
    (H : collect_text wrap files depth c = (Returned text, c')) :
  strip text <> []
  /\ forall scorer,
       calls scorer (analyze_text text) = [strip text]
       /\ sentiment_scores (run scorer (analyze_text text)) = scorer (strip text)
       /\ preview (run scorer (analyze_text text)) <> [].
Proof.
  assert (Hne : strip text <> []).
  { unfold collect_text in H.
    destruct (prompt_input_method wrap c) as [[method|e] c1]; [|discriminate].
    destruct (str_eqb method (py "1")).
    - pose proof (path_loop_outcome (pending c1) (written c1)) as Hf.
      unfold read_text_from_file in H. rewrite H in Hf. simpl in Hf.
      destruct Hf as (line & _ & Hu). now apply (usable_text_nonblank line).
    - destruct (read_text_from_input_returns depth c1 c' text H) as [Hn Hs].
      now rewrite Hs. }
  split; auto. intros scorer. split; [|split].
  - now apply calls_nonblank.
  - rewrite run_sentiment_scores. unfold scores_used.
    apply nonempty_true in Hne. now rewrite Hne.
  - rewrite run_preview. destruct (200 <? length (strip text)) eqn:L; auto.
    apply Nat.ltb_lt in L. intros E. apply (f_equal (@length _)) in E.
    rewrite length_app, firstn_length_le in E by lia. simpl in E. lia.
Qed.

End FileFacts.

(** ** Loading a file into the window *)

Section LoadFacts.

Context {U : Unicode}.
Variable format_3f : float -> str.
Variable chosen : str.
Variable opened : str -> str + str.


(** X21: after a file with a text that is not blank has been loaded into
    an input box that can be edited, the box holds the text of the file in
    place of what it held, and the analyze button asks the scorer about
    the trimmed text of the file and shows the report for the analysis of
    that text. *)
Theorem load_file_then_analyze (g : window) (content' : str) (scorer : str -> Scores)
    (Hc : chosen <> []) (Ho : opened chosen = inl content')
    (He : editable (input_box g) = true) (Hne : strip content' <> []) :
  content (input_box (load_file chosen opened g)) = content'
  /\ calls scorer (run_analysis format_3f (load_file chosen opened g))
     = [strip content']
  /\ content (output_box (run scorer
                (run_analysis format_3f (load_file chosen opened g))))
     = report format_3f (run scorer (analyze_text content')).
Proof.
  assert (E : input_box (load_file chosen opened g)
              = {| content := content'; editable := true |}).
  { unfold load_file. apply nonempty_true in Hc. rewrite Hc, Ho. simpl.
    unfold delete_all. rewrite He. reflexivity. }
  assert (Hne' : strip (content (input_box (load_file chosen opened g))) <> [])
    by now rewrite E.
  split; [now rewrite E|]. split.
  - pose proof Hne' as Hb. apply nonempty_true in Hb.
    unfold run_analysis. rewrite strip_get_all, Hb, analyze_text_trimmed.
    rewrite calls_bind, calls_analyze_text, Hb, E. reflexivity.
  - rewrite (run_analysis_result format_3f _ scorer Hne'), E. reflexivity.
Qed.

End LoadFacts.

(** * Examples of the presentation code *)

Section PresentationExamples.

#[local] Existing Instance ascii_only.
#[local] Existing Instance ascii_upper.

Lemma two_items_spaceless : spaceless two_items.
Proof.
  repeat constructor; simpl; intros H;
    repeat (destruct H as [H | H]; [discriminate|]); exact H.
Qed.

Lemma cutting_wrap_fits (line : str) (w : nat) :
  48 <= w -> Forall (fun segment => length segment <= w) (cutting_wrap line w).
Proof. intros _. repeat constructor. apply firstn_le_length. Qed.

Lemma format_top_words_injective_witness :
  spaceless two_items
  /\ format_top_words two_items
     = format_top_words (firstn 2 (two_items ++ two_items))
  /\ two_items = firstn 2 (two_items ++ two_items).
Proof.
  split; [exact two_items_spaceless|]. split; [reflexivity|].
  apply (format_top_words_injective two_items (firstn 2 (two_items ++ two_items))).
  - exact two_items_spaceless.
  - exact two_items_spaceless.
  - reflexivity.
Defined.

Example format_top_words_example :
  format_top_words two_items
  = [py "1. good - 2 time(s)"; py "2. don't - 1 time(s)"]
  /\ format_top_words [] = [no_words_line].
Proof. split; vm_compute; reflexivity. Qed.

Lemma print_panel_uniform_width_witness :
  exists rows,
    print_panel cutting_wrap (py "Overview") [py "Word count: 5"] = rows ++ [[]]
    /\ Forall (fun row => length row = 52) rows.
Proof.
  exact (print_panel_uniform_width cutting_wrap cutting_wrap_fits
           (py "Overview") [py "Word count: 5"]).
Defined.

Lemma prompt_input_method_accepts_witness :
  fst (prompt_input_method cutting_wrap typing_a_choice) = Returned (py "2")
  /\ pending (snd (prompt_input_method cutting_wrap typing_a_choice))
     = [py "left"].
Proof.
  assert (Hrej : Forall (fun line => is_choice (strip line) = false) [py "x"])
    by (repeat constructor).
  assert (Hgood : is_choice (strip (py " 2 ")) = true) by reflexivity.
  rewrite (prompt_input_method_accepts cutting_wrap typing_a_choice
             [py "x"] (py " 2 ") [py "left"] Hrej Hgood eq_refl).
  split; reflexivity.
Defined.

Lemma read_text_from_input_nonblank_witness :
  read_text_from_input 3 typing_a_text
  = (Returned (py "Hello" ++ [newline] ++ py "world"),
     {| pending := [py "more"]; written := [paste_banner ++ [newline]] |})
  /\ forall scorer,
       calls scorer (analyze_text (py "Hello" ++ [newline] ++ py "world"))
       = [py "Hello" ++ [newline] ++ py "world"].
Proof.
  assert (H : read_text_from_input 3 typing_a_text
              = (Returned (py "Hello" ++ [newline] ++ py "world"),
                 {| pending := [py "more"];
                    written := [paste_banner ++ [newline]] |}))
    by (vm_compute; reflexivity).
  split; [exact H|].
  apply (read_text_from_input_nonblank 3 typing_a_text _ _ H).
Defined.

Lemma read_text_from_input_block_witness :
  read_text_from_input 1 typing_a_text
  = (Returned (py "Hello" ++ [newline] ++ py "world"),
     {| pending := [py "more"]; written := [paste_banner ++ [newline]] |}).
Proof.
  assert (Hblock : Forall (fun line => is_end line = false)
                     [py " Hello"; py "world "]) by (repeat constructor).
  assert (Htext : strip (join [newline] [py " Hello"; py "world "]) <> [])
    by (vm_compute; discriminate).
  destruct (read_text_from_input_block 0 typing_a_text
              [py " Hello"; py "world "] Hblock Htext) as [_ Hend].
  rewrite (Hend (py " end ") [py "more"] eq_refl eq_refl).
  vm_compute. reflexivity.
Defined.

Lemma read_text_from_input_exhausted_witness :
  fst (read_text_from_input 1000 typing_blanks) = Raised RecursionError.
Proof.
  apply (read_text_from_input_exhausted 1000 typing_blanks).
  - repeat constructor.
  - reflexivity.
Defined.

Lemma run_analysis_blank_witness :
  strip (content (input_box blank_window)) = []
  /\ run_analysis three_places blank_window
     = Ret {| input_box := input_box blank_window;
              output_box := output_box blank_window;
              dialogs := [no_text_warning] |}.
Proof.
  split; [reflexivity|].
  apply (run_analysis_blank three_places blank_window). reflexivity.
Defined.

Lemma run_analysis_report_witness :
  calls indifferent (run_analysis three_places filled_window) = [py "Good day"]
  /\ editable (output_box (run indifferent (run_analysis three_places filled_window)))
     = false.
Proof.
  assert (H : strip (content (input_box filled_window)) <> [])
    by (vm_compute; discriminate).
  destruct (run_analysis_report three_places filled_window indifferent H)
    as [Hc Hr].
  rewrite Hc, Hr. split; reflexivity.
Defined.

Lemma run_analysis_twice_witness :
  run indifferent
    (run_analysis three_places
       (run indifferent (run_analysis three_places filled_window)))
  = run indifferent (run_analysis three_places filled_window).
Proof.
  apply (run_analysis_twice three_places filled_window indifferent).
  vm_compute. discriminate.
Defined.

(** The report of the window for the text " Good day ". *)
Example report_example :
  content (output_box (run indifferent (run_analysis three_places filled_window)))
  = join [newline]
      [py "Word count: 2";
       py "Characters (with spaces): 8";
       py "Characters (without spaces): 7";
       py "";
       py "Top 5 Words:";
       py "1. good - 1 time(s)";
       py "2. day - 1 time(s)";
       py "";
       py "Sentiment: Neutral";
       py "Scores -> Pos: 0.000, Neu: 0.000, Neg: 0.000, Compound: 0.000"].
Proof. vm_compute. reflexivity. Qed.

(** The sentinel is recognised in any case and between blanks. *)
Example is_end_examples :
  is_end (py "END") = true /\ is_end (py "  end ") = true
  /\ is_end (py "End") = true /\ is_end (py "END.") = false
  /\ is_end (py "the end") = false.
Proof. vm_compute. repeat split. Qed.

Lemma print_panel_plain_rows_witness :
  print_panel cutting_wrap (py "Overview") [py "Word count: 5"; py ""]
  = [py "+--------------------------------------------------+";
     py "|                     Overview                     |";
     py "| ------------------------------------------------ |";
     py "| Word count: 5                                    |";
     py "|                                                  |";
     py "+--------------------------------------------------+";
     []].
Proof.
  rewrite (print_panel_plain_rows cutting_wrap (py "Overview")
             [py "Word count: 5"; py ""]).
  - vm_compute. reflexivity.
  - intros line _ Hlen. unfold cutting_wrap. now rewrite firstn_all2.
Defined.


Lemma collect_text_nonblank_witness :
  fst (collect_text cutting_wrap two_files 5 choosing_to_type)
  = Returned (py "hi there")
  /\ forall scorer, calls scorer (analyze_text (py "hi there")) = [py "hi there"].
Proof.
  assert (H : collect_text cutting_wrap two_files 5 choosing_to_type
              = (Returned (py "hi there"),
                 snd (collect_text cutting_wrap two_files 5 choosing_to_type)))
    by (vm_compute; reflexivity).
  split; [now rewrite H|].
  intros scorer.
  destruct (collect_text_nonblank cutting_wrap two_files 5 choosing_to_type
              _ (py "hi there") H) as [_ Hall].
  apply (Hall scorer).
Defined.

Lemma load_file_then_analyze_witness :
  content (input_box (load_file (py "notes.txt") reading_notes filled_window))
  = py " Good day "
  /\ calls indifferent
       (run_analysis three_places
          (load_file (py "notes.txt") reading_notes filled_window))
     = [py "Good day"].
Proof.
  destruct (load_file_then_analyze three_places (py "notes.txt") reading_notes
              filled_window (py " Good day ") indifferent) as (H1 & H2 & _).
  - discriminate.
  - reflexivity.
  - reflexivity.
  - vm_compute. discriminate.
  - split; [exact H1 | exact H2].
Defined.

End PresentationExamples.
